(** * Live capture pipeline of [scripts/usb_audio_stt_translate.py]

    A shallow embedding of the two classes of the script:

    - [AudioStreamer]: the capture callback, the start/stop life cycle and
      the frame generator that feeds the recognizer;
    - [SpeechToTextTranslator]: [process_stream], which turns recognition
      results into numbered segments and appends them to the session log,
      and [translate_text].

    Part I models the producer/consumer hand-off as a labelled transition
    system driven by a schedule; Part II models [process_stream] in a
    state-and-exception monad in which side effects survive a raised
    exception, as they do in Python. Parts III to V hold the documented log
    layout, the vocabulary of the statements and the example sessions;
    Part VI models device selection, the main program and the URL helper
    of the client; the remaining parts hold the theorems. *)

From Stdlib Require Import List String Ascii Bool Arith Lia.
From Stdlib.Strings Require Import Byte.
From Stdlib Require Import DecimalString NArith.
Import ListNotations.

Local Open Scope list_scope.

(** String concatenation, written apart from list concatenation. *)
Infix "^^" := String.append (at level 60, right associativity).

(* ================================================================== *)
(** ** Part I: [AudioStreamer]                                         *)
(* ================================================================== *)

Module Streamer.

(** A frame is the [bytes] object handed to the callback as [in_data]. *)
Definition frame := list byte.

(** [self.stream] exists only once [start_stream] has run ([hasattr]). *)
Inductive stream_status := StreamActive | StreamClosed.

Record AudioStreamer := mkStreamer {
  is_recording : bool;
  audio_queue : list frame;          (* queue.Queue(), unbounded FIFO *)
  stream : option stream_status;
  audio_terminated : bool
}.

(** [__init__]: an empty queue, not recording, no stream attribute. *)
Definition init : AudioStreamer :=
  mkStreamer false [] None false.

(** [_audio_callback]: the frame is put on the queue only under the flag. *)
Definition _audio_callback (self : AudioStreamer) (in_data : frame)
  : AudioStreamer :=
  if is_recording self
  then mkStreamer (is_recording self) (audio_queue self ++ [in_data])
                  (stream self) (audio_terminated self)
  else self.

(** [start_stream]: raise the flag, open and start the device stream. *)
Definition start_stream (self : AudioStreamer) : AudioStreamer :=
  mkStreamer true (audio_queue self) (Some StreamActive)
             (audio_terminated self).

(** [stop_stream]: lower the flag, close the stream if there is one,
    terminate the audio subsystem. *)
Definition stop_stream (self : AudioStreamer) : AudioStreamer :=
  mkStreamer false (audio_queue self)
             (match stream self with
              | Some _ => Some StreamClosed
              | None => None
              end)
             true.

(** *** The generator

    [audio_generator] is a coroutine; its control point is one of: about to
    evaluate the loop test [while self.is_recording] (also the state in which
    it is suspended at [yield], since resuming leads straight to the test),
    blocked inside [self.audio_queue.get(timeout=1)], or returned. *)
Inductive gen_pc := AtLoopTest | AtGet | Returned.

Record System := mkSystem {
  streamer : AudioStreamer;
  pc : gen_pc
}.

Definition boot : System := mkSystem init AtLoopTest.

(** The atomic actions of the three threads that touch the streamer: the
    audio subsystem's callback thread, the main thread (start/stop) and the
    thread that pulls the generator. *)
Inductive action :=
| Callback (in_data : frame)  (* the device delivers a frame *)
| StartStream
| StopStream
| LoopTest                    (* the generator evaluates its loop test *)
| GetChunk                    (* [get] returns the head, which is yielded *)
| GetTimeout.                 (* [get] raises [queue.Empty]; [continue] *)

(** What an action lets an observer see. *)
Inductive event :=
| Put (f : frame)             (* [self.audio_queue.put(in_data)] ran *)
| Yield (f : frame)           (* the generator yielded [f] *)
| StopIteration.              (* the generator returned *)

Definition with_queue (self : AudioStreamer) (q : list frame) : AudioStreamer :=
  mkStreamer (is_recording self) q (stream self) (audio_terminated self).

(** [audio_generator], one atomic step of its body at a time. [None]: the
    step is not enabled in this state (the generator is not at that control
    point, [get] has nothing to return, or the timeout cannot fire because a
    frame is available). *)
Definition audio_generator (a : action) (s : System)
  : option (System * list event) :=
  match a with
  | LoopTest =>                       (* while self.is_recording: *)
      match pc s with
      | AtLoopTest =>
          if is_recording (streamer s)
          then Some (mkSystem (streamer s) AtGet, [])
          else Some (mkSystem (streamer s) Returned, [StopIteration])
      | _ => None
      end
  | GetChunk =>                       (* chunk = get(timeout=1); yield chunk *)
      match pc s, audio_queue (streamer s) with
      | AtGet, chunk :: rest =>
          Some (mkSystem (with_queue (streamer s) rest) AtLoopTest,
                [Yield chunk])
      | _, _ => None
      end
  | GetTimeout =>                     (* except queue.Empty: continue *)
      match pc s, audio_queue (streamer s) with
      | AtGet, [] => Some (mkSystem (streamer s) AtLoopTest, [])
      | _, _ => None
      end
  | _ => None
  end.

(** One action of any of the threads. *)
Definition step (a : action) (s : System) : option (System * list event) :=
  match a with
  | Callback f =>
      Some (mkSystem (_audio_callback (streamer s) f) (pc s),
            if is_recording (streamer s) then [Put f] else [])
  | StartStream => Some (mkSystem (start_stream (streamer s)) (pc s), [])
  | StopStream => Some (mkSystem (stop_stream (streamer s)) (pc s), [])
  | LoopTest | GetChunk | GetTimeout => audio_generator a s
  end.

(** A schedule is run action by action; the events are collected in order. *)
Fixpoint run (acts : list action) (s : System)
  : option (System * list event) :=
  match acts with
  | [] => Some (s, [])
  | a :: rest =>
      match step a s with
      | None => None
      | Some (s1, ev1) =>
          match run rest s1 with
          | None => None
          | Some (s2, ev2) => Some (s2, ev1 ++ ev2)
          end
      end
  end.

Fixpoint puts (tr : list event) : list frame :=
  match tr with
  | [] => []
  | Put f :: r => f :: puts r
  | _ :: r => puts r
  end.

Fixpoint yields (tr : list event) : list frame :=
  match tr with
  | [] => []
  | Yield f :: r => f :: yields r
  | _ :: r => yields r
  end.

(** The schedule that polls an empty queue [n] times in a row. *)
Fixpoint repoll (n : nat) : list action :=
  match n with
  | O => []
  | S k => GetTimeout :: LoopTest :: repoll k
  end.

Definition is_start (a : action) : bool :=
  match a with StartStream => true | _ => false end.

Definition is_callback (a : action) : bool :=
  match a with Callback _ => true | _ => false end.

(** A run in which capture stops with a backlog: two frames are captured,
    the first is pulled, capture stops, and the generator is resumed. *)
Definition f1 : frame := [x01].
Definition f2 : frame := [x02].
Definition stop_with_backlog : list action :=
  [StartStream; Callback f1; Callback f2; LoopTest; GetChunk;
   StopStream; LoopTest].

End Streamer.

(* ================================================================== *)
(** ** Part II: [SpeechToTextTranslator]                               *)
(* ================================================================== *)

Module Translator.

(** *** Strings of the script *)

Definition nl : string := String (ascii_of_nat 10) EmptyString.  (* \n *)
Definition cr : string := String (ascii_of_nat 13) EmptyString.  (* \r *)

(** Python's [s * n] on strings. *)
Fixpoint str_mul (s : string) (n : nat) : string :=
  match n with
  | O => EmptyString
  | S k => s ^^ str_mul s k
  end.

(** Python's [str(n)] / [f"{n}"] for a non-negative integer. *)
Definition string_of_nat (n : nat) : string :=
  NilZero.string_of_uint (Nat.to_uint n).

(** Python's [s.split(sep)[0]] for a one-character separator: the part of
    [s] before the first [sep], all of [s] when there is none. *)
Fixpoint split_first (sep : ascii) (s : string) : string :=
  match s with
  | EmptyString => EmptyString
  | String c rest =>
      if Ascii.eqb c sep then EmptyString
      else String c (split_first sep rest)
  end.

Definition hyphen : ascii := ascii_of_nat 45.

(** *** Exceptions and outcomes *)

(** [Exception msg] stands for any instance of a subclass of [Exception],
    [msg] being its [str]; [KeyboardInterrupt] derives from [BaseException]
    only, so [except Exception] lets it through. The other classes that
    derive from [BaseException] only ([SystemExit], [GeneratorExit]) are
    not represented. *)
Inductive exn :=
| Exception (msg : string)
| KeyboardInterrupt.

Inductive outcome (A : Type) :=
| Ok (a : A)
| Raise (e : exn).
Arguments Ok {A} a.
Arguments Raise {A} e.

(** *** The recognizer's stream *)

(** One [result] of a response: the transcripts of its alternatives, in
    order, and the finality flag. *)
Record Result := mkResult {
  alternatives : list string;
  is_final : bool
}.

(** Pulling the next item of [responses] either delivers a response (its
    [results]) or raises; a list that ends stands for [StopIteration]. *)
Inductive stream_item :=
| Response (results : list Result)
| StreamRaise (e : exn).

(** *** The text file behind [self.output_file] *)

Record File := mkFile {
  name : string;
  buffer : string;      (* written, still in the file object's buffer *)
  persisted : string;   (* handed over to the operating system for certain;
                           a full buffer may be handed over earlier *)
  closed : bool
}.

(** *** The environment

    Readings of the wall clock and answers of the translation service are
    inputs. The [k]-th call of [datetime.now()] is rendered by the three
    formats the script uses; the [k]-th call of the translation client gets
    its own answer, so that the service can fail for one call only.

    An operator interrupt is represented at the two places where the
    program waits: the pull of the next response ([StreamRaise]) and the
    call of the translation client. An interrupt delivered between two
    other statements is not represented. *)
Record Env := mkEnv {
  strftime_file : nat -> string;      (* "%Y%m%d_%H%M%S" *)
  strftime_HMS : nat -> string;       (* "%H:%M:%S" *)
  str_datetime : nat -> string;       (* str(datetime.now()) *)
  translate_client : nat -> string -> string -> string -> outcome string
    (* call number, text, target_language, source_language *)
}.

(** *** The state threaded through [process_stream] *)

Record World := mkWorld {
  source_language : string;           (* self.source_language *)
  target_language : string;           (* self.target_language *)
  output_file : option File;          (* self.output_file *)
  output_filename : option string;    (* local; unbound = None *)
  segment_count : nat;                (* local *)
  console : list string;              (* what print has emitted *)
  clock : nat;                        (* readings of datetime.now() so far *)
  translate_calls : list (string * string * string)
    (* arguments of the calls made: text, target_language, source_language *)
}.

(** [__init__] with the given languages, before anything ran. *)
Definition fresh (src tgt : string) : World :=
  mkWorld src tgt None None 0 [] 0 [].

Definition set_output_file (w : World) (f : option File) : World :=
  mkWorld (source_language w) (target_language w) f (output_filename w)
          (segment_count w) (console w) (clock w) (translate_calls w).

Definition set_output_filename (w : World) (n : option string) : World :=
  mkWorld (source_language w) (target_language w) (output_file w) n
          (segment_count w) (console w) (clock w) (translate_calls w).

Definition set_segment_count (w : World) (n : nat) : World :=
  mkWorld (source_language w) (target_language w) (output_file w)
          (output_filename w) n (console w) (clock w) (translate_calls w).

Definition add_console (w : World) (s : string) : World :=
  mkWorld (source_language w) (target_language w) (output_file w)
          (output_filename w) (segment_count w) (console w ++ [s]) (clock w)
          (translate_calls w).

Definition tick (w : World) : World :=
  mkWorld (source_language w) (target_language w) (output_file w)
          (output_filename w) (segment_count w) (console w) (S (clock w))
          (translate_calls w).

Definition add_call (w : World) (c : string * string * string) : World :=
  mkWorld (source_language w) (target_language w) (output_file w)
          (output_filename w) (segment_count w) (console w) (clock w)
          (translate_calls w ++ [c]).

(** *** A state monad with exceptions

    The state is returned in both cases: what a statement did before it
    raised stays done. *)
Definition M (A : Type) : Type := World -> World * outcome A.

Definition ret {A} (a : A) : M A := fun w => (w, Ok a).

Definition bind {A B} (m : M A) (k : A -> M B) : M B :=
  fun w =>
    match m w with
    | (w1, Ok a) => k a w1
    | (w1, Raise e) => (w1, Raise e)
    end.

Definition raise {A} (e : exn) : M A := fun w => (w, Raise e).

Definition gets {A} (f : World -> A) : M A := fun w => (w, Ok (f w)).

Definition modify (f : World -> World) : M unit := fun w => (f w, Ok tt).

Notation "x <- m ;; k" := (bind m (fun x => k))
  (at level 61, m at next level, right associativity).
Notation "m ;; k" := (bind m (fun _ => k))
  (at level 61, right associativity).

(** [try: m  except Exception as e: h (str e)]. *)
Definition try_except {A} (m : M A) (h : string -> M A) : M A :=
  fun w =>
    match m w with
    | (w1, Raise (Exception msg)) => h msg w1
    | r => r
    end.

(** [try: m  finally: f]. An exception of [f] replaces the pending one. *)
Definition try_finally {A} (m : M A) (f : M unit) : M A :=
  fun w =>
    match m w with
    | (w1, r) =>
        match f w1 with
        | (w2, Ok _) => (w2, r)
        | (w2, Raise e) => (w2, Raise e)
        end
    end.

(** [for x in xs: body x]. *)
Fixpoint for_each {A} (body : A -> M unit) (xs : list A) : M unit :=
  match xs with
  | [] => ret tt
  | x :: rest => body x ;; for_each body rest
  end.

(** *** Primitive statements *)

(** [print(s, end=e)]. *)
Definition print_end (s e : string) : M unit :=
  modify (fun w => add_console w (s ^^ e)).

Definition print (s : string) : M unit := print_end s nl.

(** [datetime.now()]: the number of the reading. *)
Definition datetime_now : M nat :=
  fun w => (tick w, Ok (clock w)).

(** [open(output_filename, 'w', encoding='utf-8')] bound to
    [self.output_file]: a new, empty, open file. *)
Definition open_w (filename : string) : M unit :=
  modify (fun w => set_output_file w (Some (mkFile filename EmptyString EmptyString false))).

Definition closed_file_error : exn :=
  Exception "I/O operation on closed file.".

Definition none_attribute_error (attr : string) : exn :=
  Exception ("'NoneType' object has no attribute '" ^^ attr ^^ "'").

(** [self.output_file.write(s)]. *)
Definition file_write (s : string) : M unit :=
  fun w =>
    match output_file w with
    | None => (w, Raise (none_attribute_error "write"))
    | Some f =>
        if closed f then (w, Raise closed_file_error)
        else (set_output_file w
                (Some (mkFile (name f) (buffer f ^^ s) (persisted f) false)),
              Ok tt)
    end.

(** [self.output_file.flush()]: the buffer goes to the operating system. *)
Definition file_flush : M unit :=
  fun w =>
    match output_file w with
    | None => (w, Raise (none_attribute_error "flush"))
    | Some f =>
        if closed f then (w, Raise closed_file_error)
        else (set_output_file w
                (Some (mkFile (name f) EmptyString (persisted f ^^ buffer f)
                        false)),
              Ok tt)
    end.

(** [self.output_file.close()]: flushes, then closes; closing twice is
    allowed. *)
Definition file_close : M unit :=
  fun w =>
    match output_file w with
    | None => (w, Raise (none_attribute_error "close"))
    | Some f =>
        if closed f then (w, Ok tt)
        else (set_output_file w
                (Some (mkFile (name f) EmptyString (persisted f ^^ buffer f)
                        true)),
              Ok tt)
    end.

(** [if self.output_file:] a file object is truthy, open or closed. *)
Definition has_output_file : M bool :=
  gets (fun w => match output_file w with Some _ => true | None => false end).

(** Everything written so far, flushed or not. *)
Definition contents (f : File) : string := persisted f ^^ buffer f.

(** *** [translate_text] and [process_stream] *)

Section WithEnv.

Variable E : Env.

(** [self.translate_client.translate(text, target_language=...,
    source_language=...)['translatedText']]. *)
Definition call_translate (text tgt src : string) : M string :=
  fun w =>
    (add_call w (text, tgt, src),
     translate_client E (List.length (translate_calls w)) text tgt src).

Definition translate_text (text : string) : M string :=
  try_except
    (tgt <- gets target_language ;;
     src <- gets source_language ;;
     call_translate text tgt (split_first hyphen src))
    (fun e => ret ("[Translation error: " ^^ e ^^ "]")).

(** [result.alternatives[0].transcript]. *)
Definition first_transcript (result : Result) : M string :=
  match alternatives result with
  | transcript :: _ => ret transcript
  | [] => raise (Exception "list index out of range")
  end.

(** The body of [for result in response.results:]. *)
Definition process_result (translate_enabled : bool) (result : Result)
  : M unit :=
  transcript <- first_transcript result ;;
  if is_final result then
    modify (fun w => set_segment_count w (segment_count w + 1)) ;;
    t <- datetime_now ;;
    let timestamp_str := strftime_HMS E t in
    print ("📝 [" ^^ timestamp_str ^^ "] Original: " ^^ transcript) ;;
    (if translate_enabled then
       translation <- translate_text transcript ;;
       print ("🌍 [" ^^ timestamp_str ^^ "] Translated: " ^^ translation) ;;
       opened <- has_output_file ;;
       if opened then
         n <- gets segment_count ;;
         src <- gets source_language ;;
         tgt <- gets target_language ;;
         file_write ("[" ^^ timestamp_str ^^ "] Segment "
                       ^^ string_of_nat n ^^ nl) ;;
         file_write ("Original (" ^^ src ^^ "): " ^^ transcript ^^ nl) ;;
         file_write ("Translation (" ^^ tgt ^^ "): " ^^ translation ^^ nl) ;;
         file_write (str_mul "-" 60 ^^ nl ^^ nl) ;;
         file_flush
       else ret tt
     else
       opened <- has_output_file ;;
       if opened then
         file_write ("[" ^^ timestamp_str ^^ "] " ^^ transcript ^^ nl ^^ nl) ;;
         file_flush
       else ret tt) ;;
    print (str_mul "-" 60)
  else
    print_end ("💭 " ^^ transcript) cr.

(** [for response in responses: for result in response.results: ...]. *)
Fixpoint for_responses (body : Result -> M unit) (items : list stream_item)
  : M unit :=
  match items with
  | [] => ret tt
  | Response results :: rest =>
      for_each body results ;; for_responses body rest
  | StreamRaise e :: _ => raise e
  end.

(** The [if save_to_file:] block: name and open the log, write the header.
    [os.makedirs] and [open] are taken to succeed; in the script they run
    before [try:], so an error of theirs leaves [process_stream] at once. *)
Definition open_log : M unit :=
  t <- datetime_now ;;
  let filename := "results/live_translation_" ^^ strftime_file E t ^^ ".txt" in
  modify (fun w => set_output_filename w (Some filename)) ;;
  open_w filename ;;
  file_write ("LIVE TRANSLATION SESSION" ^^ nl) ;;
  file_write (str_mul "=" 60 ^^ nl) ;;
  d <- datetime_now ;;
  file_write ("Date: " ^^ str_datetime E d ^^ nl) ;;
  src <- gets source_language ;;
  file_write ("Source Language: " ^^ src ^^ nl) ;;
  tgt <- gets target_language ;;
  file_write ("Target Language: " ^^ tgt ^^ nl) ;;
  file_write (str_mul "=" 60 ^^ nl ^^ nl) ;;
  file_flush ;;
  print (nl ^^ "💾 Saving translations to: " ^^ filename ^^ nl).

(** The [finally:] block. *)
Definition close_log : M unit :=
  opened <- has_output_file ;;
  if opened then
    file_write (nl ^^ str_mul "=" 60 ^^ nl) ;;
    d <- datetime_now ;;
    file_write ("Session ended: " ^^ str_datetime E d ^^ nl) ;;
    n <- gets segment_count ;;
    file_write ("Total segments: " ^^ string_of_nat n ^^ nl) ;;
    file_close ;;
    filename <- gets output_filename ;;
    match filename with
    | Some fn => print (nl ^^ "✅ Translation saved to: " ^^ fn)
    | None =>
        raise (Exception
          "cannot access local variable 'output_filename' where it is not associated with a value")
    end
  else ret tt.

(** [process_stream(audio_streamer, translate_enabled, save_to_file)], the
    recognizer's answer to the audio being given as [items]. *)
Definition process_stream (items : list stream_item)
    (translate_enabled save_to_file : bool) : M unit :=
  (if save_to_file then open_log else ret tt) ;;
  src <- gets source_language ;;
  print (nl ^^ "🎧 Listening in " ^^ src ^^ "...") ;;
  (if translate_enabled then
     tgt <- gets target_language ;;
     print ("🌐 Translating to " ^^ tgt ^^ "..." ^^ nl)
   else ret tt) ;;
  modify (fun w => set_segment_count w 0) ;;
  try_finally
    (try_except
       (for_responses (process_result translate_enabled) items)
       (fun e => print (nl ^^ "❌ Error: " ^^ e)))
    close_log.

End WithEnv.

End Translator.

(* ================================================================== *)
(** ** Part III: the documented log layout                             *)
(* ================================================================== *)

(** The blocks of the session log as the file format documents them; the
    theorems compare what [process_stream] writes with these. *)
Module Layout.

Import Translator.

(** The header block of the session log. *)
Definition header (src tgt date : string) : string :=
  ("LIVE TRANSLATION SESSION" ^^ nl) ^^
  (str_mul "=" 60 ^^ nl) ^^
  ("Date: " ^^ date ^^ nl) ^^
  ("Source Language: " ^^ src ^^ nl) ^^
  ("Target Language: " ^^ tgt ^^ nl) ^^
  (str_mul "=" 60 ^^ nl ^^ nl).

(** One segment in the documented four-line layout. *)
Definition segment_entry (src tgt timestamp : string) (n : nat)
    (original translation : string) : string :=
  ("[" ^^ timestamp ^^ "] Segment " ^^ string_of_nat n ^^ nl) ^^
  ("Original (" ^^ src ^^ "): " ^^ original ^^ nl) ^^
  ("Translation (" ^^ tgt ^^ "): " ^^ translation ^^ nl) ^^
  (str_mul "-" 60 ^^ nl ^^ nl).

(** One transcript in the reduced layout: time stamp and text only. *)
Definition reduced_entry (timestamp transcript : string) : string :=
  "[" ^^ timestamp ^^ "] " ^^ transcript ^^ nl ^^ nl.

(** The trailer block. *)
Definition trailer (date : string) (total : nat) : string :=
  (nl ^^ str_mul "=" 60 ^^ nl) ^^
  ("Session ended: " ^^ date ^^ nl) ^^
  ("Total segments: " ^^ string_of_nat total ^^ nl).

(** The visible marker that stands in for a failed translation. *)
Definition error_placeholder (msg : string) : string :=
  "[Translation error: " ^^ msg ^^ "]".

(** What [translate_text] hands back for the answer of the service, when
    the call is not interrupted. *)
Definition translation_of (o : outcome string) : string :=
  match o with
  | Ok t => t
  | Raise (Exception msg) => error_placeholder msg
  | Raise KeyboardInterrupt => EmptyString
  end.

Fixpoint concat_str (l : list string) : string :=
  match l with
  | [] => EmptyString
  | s :: r => s ^^ concat_str r
  end.

(** [s] occurs somewhere in [t]. *)
Definition occurs_in (s t : string) : Prop :=
  exists pre post, t = pre ^^ s ^^ post.

End Layout.

(* ================================================================== *)
(** ** Part IV: the vocabulary of the statements                       *)
(* ================================================================== *)

Module Session.

Import Translator Layout.

(** The results a stream delivers, in order, and the transcripts of the
    final ones among them. *)
Definition results_of (items : list stream_item) : list Result :=
  flat_map (fun it => match it with
                      | Response rs => rs
                      | StreamRaise _ => []
                      end) items.

Definition final_transcripts (rs : list Result) : list string :=
  flat_map (fun r => if is_final r
                     then match alternatives r with
                          | t :: _ => [t]
                          | [] => []
                          end
                     else []) rs.

(** The same stream with the interim results taken out. *)
Definition drop_interim (items : list stream_item) : list stream_item :=
  map (fun it => match it with
                 | Response rs => Response (filter is_final rs)
                 | StreamRaise e => StreamRaise e
                 end) items.

(** A stream that ends without raising and whose results all carry at
    least one alternative. *)
Definition has_alternative (r : Result) : bool :=
  match alternatives r with [] => false | _ :: _ => true end.

Definition clean_item (it : stream_item) : bool :=
  match it with
  | Response rs => forallb has_alternative rs
  | StreamRaise _ => false
  end.

Definition clean (items : list stream_item) : bool := forallb clean_item items.

(** The translation service is never cut short by an operator interrupt. *)
Definition uninterrupted (E : Env) : Prop :=
  forall k text tgt src,
    translate_client E k text tgt src <> Raise KeyboardInterrupt.

(** The answer of the service to the request the committer issues for the
    transcript [t] in state [w]. *)
Definition request (E : Env) (w : World) (t : string) : outcome string :=
  translate_client E (List.length (translate_calls w)) t (target_language w)
                   (split_first hyphen (source_language w)).

(** The languages and the bound file name stay what they were. *)
Definition same_session (w w' : World) : Prop :=
  source_language w' = source_language w /\
  target_language w' = target_language w /\
  output_filename w' = output_filename w.

(** The entry of the [i]-th final event (counted from 0) of a session whose
    loop starts at clock reading [c0], translation call [k0] and segment
    count [n0]. *)
Definition entry_at (E : Env) (translate_enabled : bool) (src tgt : string)
    (c0 k0 n0 : nat) (ix : nat * string) : string :=
  let (i, transcript) := ix in
  if translate_enabled
  then segment_entry src tgt (strftime_HMS E (c0 + i)) (n0 + i + 1) transcript
         (translation_of
            (translate_client E (k0 + i) transcript tgt
                              (split_first hyphen src)))
  else reduced_entry (strftime_HMS E (c0 + i)) transcript.

Definition entries_from (E : Env) (translate_enabled : bool)
    (src tgt : string) (c0 k0 n0 : nat) (finals : list string)
  : list string :=
  map (entry_at E translate_enabled src tgt c0 k0 n0)
      (combine (seq 0 (List.length finals)) finals).

(** The log handle is usable: there is none, or it is open. *)
Definition file_ok (w : World) : Prop :=
  match output_file w with
  | Some f => closed f = false
  | None => True
  end.

(** From [w] to [w'] the log, if there is one, stayed the same open file and
    gained exactly the text [s]. *)
Definition log_grows (w w' : World) (s : string) : Prop :=
  match output_file w, output_file w' with
  | Some f, Some f' =>
      closed f' = false /\ name f' = name f /\
      contents f' = contents f ^^ s
  | None, None => True
  | _, _ => False
  end.

(** From [w] to [w'], [k] final events were taken up: counter and clock
    moved by [k], and so did the number of translation calls when
    translation is enabled. *)
Definition advanced (translate_enabled : bool) (w w' : World) (k : nat)
  : Prop :=
  same_session w w' /\
  segment_count w' = segment_count w + k /\
  clock w' = clock w + k /\
  List.length (translate_calls w')
    = List.length (translate_calls w) + (if translate_enabled then k else 0).

(** How the counter relates to the entries [es] appended since [w]: it
    moved by their number, unless an operator interrupt cut a translation
    call short, in which case it is one ahead. *)
Definition counted (E : Env) (w w' : World) (o : outcome unit)
    (es : list string) : Prop :=
  segment_count w' = segment_count w + List.length es \/
  (o = Raise KeyboardInterrupt /\ ~ uninterrupted E /\
   segment_count w' = segment_count w + List.length es + 1).

Definition is_prefix {A} (p l : list A) : Prop := exists rest, l = p ++ rest.

(** From [w] to [w'], of the final transcripts [all] on offer the first ones
    [ts] were taken up and logged, each under the clock reading, call number
    and segment number of its turn. A run that ends normally took them all;
    one that raised is [counted]. *)
Definition taken (E : Env) (translate_enabled : bool) (w w' : World)
    (o : outcome unit) (ts all : list string) : Prop :=
  is_prefix ts all /\
  same_session w w' /\
  log_grows w w'
    (concat_str
       (entries_from E translate_enabled (source_language w)
          (target_language w) (clock w) (List.length (translate_calls w))
          (segment_count w) ts)) /\
  match o with
  | Ok _ => ts = all /\ advanced translate_enabled w w' (List.length ts)
  | Raise _ => counted E w w' o ts
  end.

(** The state in which the loop of [process_stream] starts, given the state
    [w] after the [if save_to_file:] block. *)
Definition loop_start (translate_enabled : bool) (w : World) : World :=
  let w1 := add_console w
              ((nl ^^ "🎧 Listening in " ^^ source_language w ^^ "...") ^^ nl) in
  let w2 := if translate_enabled
            then add_console w1
                   (("🌐 Translating to " ^^ target_language w ^^ "..." ^^ nl)
                    ^^ nl)
            else w1 in
  set_segment_count w2 0.

(** The name [open_log] gives the log when the clock stands at [c]. *)
Definition log_name (E : Env) (c : nat) : string :=
  "results/live_translation_" ^^ strftime_file E c ^^ ".txt".

End Session.

(* ================================================================== *)
(** ** Part V: example sessions                                        *)
(* ================================================================== *)

Module Examples.

Import Translator Layout Session.

(** The two languages of the example session. *)
Definition session : World := fresh "en-US" "es".

(** A clock whose [k]-th reading prints as F[k], T[k] or D[k] in the three
    formats, and a service that fails on every second call and is never
    interrupted. *)
Definition steady : Env :=
  mkEnv (fun k => "F" ^^ string_of_nat k)
        (fun k => "T" ^^ string_of_nat k)
        (fun k => "D" ^^ string_of_nat k)
        (fun k text _ _ =>
           if Nat.even k then Ok ("<" ^^ text ^^ ">")
           else Raise (Exception "boom")).

(** The same clock, and a service interrupted by the operator on every
    call. *)
Definition interrupted : Env :=
  mkEnv (strftime_file steady) (strftime_HMS steady) (str_datetime steady)
        (fun _ _ _ _ => Raise KeyboardInterrupt).

Definition interim (t : string) : Result := mkResult [t] false.
Definition final (t : string) : Result := mkResult [t] true.

(** The example session once its log is open, and that log. *)
Definition open_session : World := fst (open_log steady session).

Definition log_file : File :=
  match output_file open_session with
  | Some f => f
  | None => mkFile EmptyString EmptyString EmptyString true
  end.

(** The example session after its first segment, and the log then. *)
Definition after_first : World :=
  fst (process_result steady true (final "Good morning everyone.")
         open_session).

Definition after_first_file : File :=
  match output_file after_first with
  | Some f => f
  | None => mkFile EmptyString EmptyString EmptyString true
  end.

(** A stream whose only event is final. *)
Definition one_utterance : list stream_item :=
  [Response [final "Let us pray."]].

Definition two_utterances : list stream_item :=
  [Response [interim "Good"; final "Good morning everyone."];
   Response [final "Let us pray."]].

End Examples.

(* ================================================================== *)
(** ** Part VI: device selection, the main program, the client helper  *)
(* ================================================================== *)

Module Devices.

Import Streamer Translator.

(** The entry [get_device_info_by_index] gives for one device; the host
    reports whole numbers of hertz, [defaultSampleRate] holds
    [int(info['defaultSampleRate'])]. *)
Record DeviceInfo := mkDevice {
  name : string;
  maxInputChannels : nat;
  defaultSampleRate : N
}.

(** Python's [sub in s] on strings. *)
Definition contains (sub s : string) : bool :=
  match index 0 sub s with
  | Some _ => true
  | None => false
  end.

(** ["USB" in info['name'] or "Focusrite" in info['name']]. *)
Definition is_usb (info : DeviceInfo) : bool :=
  contains "USB" (name info) || contains "Focusrite" (name info).

(** The loop of [_find_usb_device] from index [i] on: what it prints and
    what it returns. *)
Fixpoint find_from (i : nat) (devices : list DeviceInfo)
  : list string * option nat :=
  match devices with
  | [] => (["⚠ USB device not found, using default input" ^^ nl], None)
  | info :: rest =>
      let line := "  [" ^^ string_of_nat i ^^ "] " ^^ name info ^^ nl in
      if is_usb info
      then ([line; "✓ Found USB device: " ^^ name info ^^ nl], Some i)
      else let (out, found) := find_from (S i) rest in (line :: out, found)
  end.

(** [AudioStreamer._find_usb_device], the host's devices being [devices]. *)
Definition _find_usb_device (devices : list DeviceInfo)
  : list string * option nat :=
  let (out, found) := find_from 0 devices in
  ((nl ^^ "Available audio devices:" ^^ nl) :: out, found).

(** [AudioStreamer.__init__(device_index)]: what it prints, the device index
    it settles on and the streamer it leaves. [device_index or ...] falls
    through to the search for [None] and for [0] alike. *)
Definition __init__ (devices : list DeviceInfo) (device_index : option nat)
  : list string * (option nat * AudioStreamer) :=
  match device_index with
  | Some (S n) => ([], (Some (S n), init))
  | _ => let (out, found) := _find_usb_device devices in (out, (found, init))
  end.

(** The loop of [list_audio_devices] from index [i] on, [usb_found] being
    the flag so far: what it prints and the flag at the end. *)
Fixpoint list_from (i : nat) (devices : list DeviceInfo) (usb_found : bool)
  : list string * bool :=
  match devices with
  | [] => ([], usb_found)
  | info :: rest =>
      if 0 <? maxInputChannels info then
        let head :=
          [ "[" ^^ string_of_nat i ^^ "] " ^^ name info ^^ nl;
            "    Input Channels: " ^^ string_of_nat (maxInputChannels info)
              ^^ nl;
            "    Sample Rate: "
              ^^ NilZero.string_of_uint (N.to_uint (defaultSampleRate info))
              ^^ " Hz" ^^ nl ] in
        let mark :=
          if is_usb info
          then ["    ✅ USB AUDIO INTERFACE DETECTED!" ^^ nl]
          else [] in
        let (out, found) :=
          list_from (S i) rest (if is_usb info then true else usb_found) in
        (head ++ mark ++ [nl] ++ out, found)
      else list_from (S i) rest usb_found
  end.

Definition not_detected : list string :=
  [ "⚠️  USB Audio Interface not detected!" ^^ nl;
    ("   Check that device is plugged in and drivers are installed." ^^ nl)
      ^^ nl ].

Definition ready : list string :=
  [ ("✅ USB Audio Interface ready for testing!" ^^ nl) ^^ nl ].

(** [list_audio_devices()]: everything it prints. *)
Definition list_audio_devices (devices : list DeviceInfo) : list string :=
  let (out, usb_found) := list_from 0 devices false in
  [ (nl ^^ str_mul "=" 60) ^^ nl;
    "📢 AVAILABLE AUDIO DEVICES" ^^ nl;
    (str_mul "=" 60 ^^ nl) ^^ nl ]
  ++ out
  ++ (if negb usb_found then not_detected else ready).

(** The input devices, each with its index. *)
Fixpoint inputs_from (i : nat) (devices : list DeviceInfo)
  : list (nat * DeviceInfo) :=
  match devices with
  | [] => []
  | info :: rest =>
      if 0 <? maxInputChannels info
      then (i, info) :: inputs_from (S i) rest
      else inputs_from (S i) rest
  end.

(** An input device whose name contains USB or Focusrite. *)
Definition input_usb (info : DeviceInfo) : bool :=
  (0 <? maxInputChannels info) && is_usb info.

(** The lines [list_audio_devices] prints for the input device [info] at
    index [i]. *)
Definition block (entry : nat * DeviceInfo) : list string :=
  let (i, info) := entry in
  [ "[" ^^ string_of_nat i ^^ "] " ^^ name info ^^ nl;
    "    Input Channels: " ^^ string_of_nat (maxInputChannels info) ^^ nl;
    "    Sample Rate: "
      ^^ NilZero.string_of_uint (N.to_uint (defaultSampleRate info))
      ^^ " Hz" ^^ nl ]
  ++ (if is_usb info
      then ["    ✅ USB AUDIO INTERFACE DETECTED!" ^^ nl]
      else [])
  ++ [nl].

(** A host with an output-only USB device before its USB microphone. *)
Definition usb_speaker_first : list DeviceInfo :=
  [ mkDevice "Built-in Microphone" 2 44100%N;
    mkDevice "USB Speaker" 0 48000%N;
    mkDevice "Focusrite USB Audio" 2 48000%N ].

End Devices.

Module Program.

Import Streamer Translator.

(** What the script meets when it runs: the devices of the host and whether
    [self.audio.open(...)] succeeds ([None]) or raises ([Some msg]). *)
Record Host := mkHost {
  devices : list Devices.DeviceInfo;
  open_error : option string
}.

Definition print_all (out : list string) (w : World) : World :=
  fold_left add_console out w.

(** [start_stream] as the program runs it: the flag goes up first; when the
    device cannot be opened the exception leaves the flag up and no
    [self.stream]. *)
Definition start_stream_io (H : Host) (self : AudioStreamer) (w : World)
  : (AudioStreamer * World) * outcome unit :=
  match open_error H with
  | Some msg =>
      ((mkStreamer true (audio_queue self) (stream self)
                   (audio_terminated self), w),
       Raise (Exception msg))
  | None =>
      ((start_stream self,
        add_console w ((nl ^^ "🎤 Audio streaming started...") ^^ nl)),
       Ok tt)
  end.

(** [stop_stream] with its message. *)
Definition stop_stream_io (self : AudioStreamer) (w : World)
  : AudioStreamer * World :=
  (stop_stream self,
   add_console w ((nl ^^ "🛑 Audio streaming stopped.") ^^ nl)).

(** The block under [if __name__ == "__main__":], the recognizer's answer
    being [items]. *)
Definition main (H : Host) (E : Env) (items : list stream_item)
  : (AudioStreamer * World) * outcome unit :=
  let SOURCE_LANG := "en-US"%string in
  let TARGET_LANG := "es"%string in
  let ENABLE_TRANSLATION := true in
  let w0 :=
    print_all [ str_mul "=" 60 ^^ nl;
                "🎙️  USB Audio → Speech-to-Text → Translation" ^^ nl;
                str_mul "=" 60 ^^ nl ]
              (fresh SOURCE_LANG TARGET_LANG) in
  let '(out, (_, streamer)) := Devices.__init__ (devices H) None in
  let w1 := print_all out w0 in
  (* try: *)
  let '((streamer1, w2), o1) := start_stream_io H streamer w1 in
  let '(w3, o2) :=
    match o1 with
    | Ok _ => process_stream E items ENABLE_TRANSLATION true w2
    | Raise e => (w2, Raise e)
    end in
  (* except KeyboardInterrupt: *)
  let '(w4, o3) :=
    match o2 with
    | Raise KeyboardInterrupt =>
        (add_console w3 ((nl ^^ nl ^^ "⏹️  Stopping...") ^^ nl), Ok tt)
    | _ => (w3, o2)
    end in
  (* finally: *)
  let '(streamer2, w5) := stop_stream_io streamer1 w4 in
  ((streamer2, add_console w5 ((nl ^^ "✅ Done!") ^^ nl)), o3).

(** The same block with the call [translator.process_stream(...)] left
    open: [session] is whatever that call does to the state and however it
    ends, a raise out of it at any point included. *)
Definition main_with (H : Host) (session : World -> World * outcome unit)
  : (AudioStreamer * World) * outcome unit :=
  let w0 :=
    print_all [ str_mul "=" 60 ^^ nl;
                "🎙️  USB Audio → Speech-to-Text → Translation" ^^ nl;
                str_mul "=" 60 ^^ nl ]
              (fresh "en-US" "es") in
  let '(out, (_, streamer)) := Devices.__init__ (devices H) None in
  let w1 := print_all out w0 in
  let '((streamer1, w2), o1) := start_stream_io H streamer w1 in
  let '(w3, o2) :=
    match o1 with
    | Ok _ => session w2
    | Raise e => (w2, Raise e)
    end in
  let '(w4, o3) :=
    match o2 with
    | Raise KeyboardInterrupt =>
        (add_console w3 ((nl ^^ nl ^^ "⏹️  Stopping...") ^^ nl), Ok tt)
    | _ => (w3, o2)
    end in
  let '(streamer2, w5) := stop_stream_io streamer1 w4 in
  ((streamer2, add_console w5 ((nl ^^ "✅ Done!") ^^ nl)), o3).

(** What [except KeyboardInterrupt] in the main block makes of the outcome
    of the session. *)
Definition interrupt_caught (o : outcome unit) : outcome unit :=
  match o with
  | Raise KeyboardInterrupt => Ok tt
  | _ => o
  end.

(** A session that fails before it gets anywhere, as [process_stream] does
    when the results directory or the log file cannot be created. *)
Definition failing_session (msg : string) : World -> World * outcome unit :=
  fun w => (w, Raise (Exception msg)).

(** A session the operator interrupts. *)
Definition interrupted_session : World -> World * outcome unit :=
  fun w => (w, Raise KeyboardInterrupt).

End Program.

Module Client.

(** [process.env.REACT_APP_API_URL || 'http://localhost:5000']; an unset
    variable is [None]. *)
Definition API_URL (env : option string) : string :=
  match env with
  | Some (String c rest) => String c rest
  | _ => "http://localhost:5000"
  end.

(** [getImageUrl(url)] for a string or [null]/[undefined] ([None]); the
    result is a string or [null]. *)
Definition getImageUrl (api_url : string) (url : option string)
  : option string :=
  match url with
  | Some (String c rest) =>
      if prefix "http" (String c rest)
      then Some (String c rest)
      else Some (api_url ^^ String c rest)
  | _ => None
  end.

End Client.

Module Schedules.

Import Streamer Translator.

(** The consumer pulls [n] frames in a row: loop test, then [get]. *)
Fixpoint pulls (n : nat) : list action :=
  match n with
  | O => []
  | S k => LoopTest :: GetChunk :: pulls k
  end.

(** The requests a run of final transcripts costs. *)
Definition requests (translate_enabled : bool) (src tgt : string)
    (ts : list string) : list (string * string * string) :=
  if translate_enabled
  then map (fun t => (t, tgt, split_first hyphen src)) ts
  else [].

(** What [except Exception] in [process_stream] makes of the outcome of the
    loop. *)
Definition guarded (o : outcome unit) : outcome unit :=
  match o with
  | Raise (Exception _) => Ok tt
  | _ => o
  end.

End Schedules.

(* ================================================================== *)
(** ** Part VII: the frame sequencer                                   *)
(* ================================================================== *)

Module StreamerFacts.

Import Streamer.

Lemma puts_app (a b : list event) : puts (a ++ b) = puts a ++ puts b.
Proof.
  induction a as [|e a IH]; simpl; [reflexivity|].
  destruct e; simpl; now rewrite IH.
Qed.

Lemma yields_app (a b : list event) : yields (a ++ b) = yields a ++ yields b.
Proof.
  induction a as [|e a IH]; simpl; [reflexivity|].
  destruct e; simpl; now rewrite IH.
Qed.

(** Every action keeps the books: what was queued plus what was put is what
    was yielded plus what is queued now. *)
Lemma step_conservation a s s' ev :
  step a s = Some (s', ev) ->
  audio_queue (streamer s) ++ puts ev = yields ev ++ audio_queue (streamer s').
Proof.
  destruct s as [st p]; destruct a; simpl.
  - unfold _audio_callback. intros H; inversion H; subst; clear H.
    destruct (is_recording st); simpl; [reflexivity | now rewrite app_nil_r].
  - intros H; inversion H; subst; simpl. now rewrite app_nil_r.
  - intros H; inversion H; subst; simpl. now rewrite app_nil_r.
  - destruct p; try discriminate.
    destruct (is_recording st); intros H; inversion H; subst; simpl;
      now rewrite app_nil_r.
  - destruct p; try discriminate.
    destruct (audio_queue st) as [|c q] eqn:Q; try discriminate.
    intros H; inversion H; subst; simpl. now rewrite app_nil_r.
  - destruct p; try discriminate.
    destruct (audio_queue st) as [|c q] eqn:Q; try discriminate.
    intros H; inversion H; subst; simpl. now rewrite Q.
Qed.

Lemma run_conservation acts : forall s s' tr,
  run acts s = Some (s', tr) ->
  audio_queue (streamer s) ++ puts tr = yields tr ++ audio_queue (streamer s').
Proof.
  induction acts as [|a acts IH]; simpl; intros s s' tr H.
  - inversion H; subst; simpl. now rewrite app_nil_r.
  - destruct (step a s) as [[s1 ev1]|] eqn:S1; try discriminate.
    destruct (run acts s1) as [[s2 ev2]|] eqn:R; try discriminate.
    inversion H; subst; clear H.
    apply step_conservation in S1. apply IH in R.
    rewrite puts_app, yields_app, app_assoc, S1, <- !app_assoc.
    now rewrite R.
Qed.

(** The generator leaves its loop at the loop test, on a false flag, and in
    no other way. *)
Lemma step_returns a s s' ev :
  step a s = Some (s', ev) ->
  pc s <> Returned -> pc s' = Returned ->
  a = LoopTest /\ pc s = AtLoopTest /\
  is_recording (streamer s) = false /\ yields ev = [].
Proof.
  destruct s as [st p]; destruct a; simpl; intros H N R.
  - inversion H; subst; simpl in *; contradiction.
  - inversion H; subst; simpl in *; contradiction.
  - inversion H; subst; simpl in *; contradiction.
  - destruct p; try discriminate.
    destruct (is_recording st) eqn:F; inversion H; subst; simpl in *;
      [discriminate | auto].
  - destruct p; try discriminate.
    destruct (audio_queue st); try discriminate.
    inversion H; subst; simpl in *; discriminate.
  - destruct p; try discriminate.
    destruct (audio_queue st); try discriminate.
    inversion H; subst; simpl in *; discriminate.
Qed.

(** A generator that has returned stays returned and yields nothing. *)
Lemma step_after_return a s s' ev :
  step a s = Some (s', ev) -> pc s = Returned ->
  pc s' = Returned /\ yields ev = [].
Proof.
  destruct s as [st p]; simpl; intros H R; subst p.
  destruct a; simpl in H; try discriminate; inversion H; subst; simpl; auto.
  destruct (is_recording st); auto.
Qed.

Lemma run_after_return acts : forall s s' tr,
  run acts s = Some (s', tr) -> pc s = Returned ->
  pc s' = Returned /\ yields tr = [].
Proof.
  induction acts as [|a acts IH]; simpl; intros s s' tr H R.
  - inversion H; subst; auto.
  - destruct (step a s) as [[s1 ev1]|] eqn:S1; try discriminate.
    destruct (run acts s1) as [[s2 ev2]|] eqn:R2; try discriminate.
    inversion H; subst; clear H.
    destruct (step_after_return _ _ _ _ S1 R) as [R1 Y1].
    destruct (IH _ _ _ R2 R1) as [R3 Y2].
    split; [assumption|]. now rewrite yields_app, Y1, Y2.
Qed.

Lemma pc_eq_dec (p q : gen_pc) : {p = q} + {p <> q}.
Proof. decide equality. Qed.

(** C1, as stated, fails: the generator returns although the queue is not
    empty, and the frame left in it was put while capture was active and is
    never yielded. *)
Lemma audio_generator_drops_backlog :
  exists s' tr,
    run stop_with_backlog boot = Some (s', tr) /\
    pc s' = Returned /\
    puts tr = [f1; f2] /\
    yields tr = [f1] /\
    audio_queue (streamer s') = [f2] /\
    audio_queue (streamer s') <> [].
Proof.
  eexists; eexists. split; [reflexivity|].
  simpl. repeat split; try reflexivity. discriminate.
Qed.

Lemma run_snoc acts a : forall s,
  run (acts ++ [a]) s
  = match run acts s with
    | None => None
    | Some (s1, tr1) =>
        match step a s1 with
        | None => None
        | Some (s2, ev) => Some (s2, tr1 ++ ev)
        end
    end.
Proof.
  induction acts as [|x acts IH]; intros s; cbn [app run].
  - destruct (step a s) as [[s2 ev]|]; [|reflexivity].
    now rewrite app_nil_r.
  - destruct (step x s) as [[s1 ev1]|]; [|reflexivity].
    rewrite IH. destruct (run acts s1) as [[s2 tr2]|]; [|reflexivity].
    destruct (step a s2) as [[s3 ev3]|]; [|reflexivity].
    now rewrite app_assoc.
Qed.

(** C1, amended: along any schedule the frames yielded, followed by the
    frames still queued, are exactly the frames queued at the start followed
    by the frames put, in order. Whenever the generator stands at its loop
    test with the flag false, its next step is to return, at once and
    whatever the queue holds: the queue is left as it is and none of it is
    yielded then or later. And a generator that has returned did so in this
    way and in no other. *)
Theorem audio_generator_fifo_until_flag_false acts : forall s s' tr,
  run acts s = Some (s', tr) ->
  audio_queue (streamer s) ++ puts tr = yields tr ++ audio_queue (streamer s')
  /\ (pc s' = AtLoopTest -> is_recording (streamer s') = false ->
      run (acts ++ [LoopTest]) s
        = Some (mkSystem (streamer s') Returned, tr ++ [StopIteration]) /\
      forall more s'' tr'',
        run more (mkSystem (streamer s') Returned) = Some (s'', tr'') ->
        pc s'' = Returned /\ yields tr'' = [])
  /\ (pc s <> Returned -> pc s' = Returned ->
      exists pre post s1 tr1 tr2,
        acts = pre ++ LoopTest :: post /\
        run pre s = Some (s1, tr1) /\
        pc s1 = AtLoopTest /\
        is_recording (streamer s1) = false /\
        step LoopTest s1
          = Some (mkSystem (streamer s1) Returned, [StopIteration]) /\
        run post (mkSystem (streamer s1) Returned) = Some (s', tr2) /\
        tr = tr1 ++ StopIteration :: tr2 /\
        yields tr = yields tr1).
Proof.
  intros s s' tr H.
  split; [now apply (run_conservation acts)|]. split.
  - intros P F. split.
    + rewrite run_snoc, H. destruct s' as [st p]. cbn [pc streamer] in *.
      subst p. cbn [step audio_generator pc streamer]. now rewrite F.
    + intros more s'' tr'' R. exact (run_after_return _ _ _ _ R eq_refl).
  - revert s s' tr H.
    induction acts as [|a acts IH]; intros s s' tr H N R.
    + simpl in H. inversion H; subst. contradiction.
    + simpl in H.
      destruct (step a s) as [[s1 ev1]|] eqn:S1; try discriminate.
      destruct (run acts s1) as [[s2 ev2]|] eqn:R2; try discriminate.
      inversion H; subst; clear H.
      destruct (pc_eq_dec (pc s1) Returned) as [R1|N1].
      * destruct (step_returns _ _ _ _ S1 N R1) as (-> & P & F & Y).
        destruct (run_after_return _ _ _ _ R2 R1) as [_ Y2].
        assert (Q : s1 = mkSystem (streamer s) Returned /\
                    ev1 = [StopIteration]).
        { destruct s as [st p]; simpl in *. subst p. rewrite F in S1.
          now inversion S1. }
        destruct Q as [-> ->].
        exists [], acts, s, [], ev2.
        repeat split; try assumption; try reflexivity.
      * destruct (IH _ _ _ R2 N1 R)
          as (pre & post & t1 & tr1 & tr2 &
              -> & Rp & P & F & St & Rq & -> & Y).
        exists (a :: pre), post, t1, (ev1 ++ tr1), tr2.
        repeat split; try assumption.
        -- simpl. now rewrite S1, Rp.
        -- now rewrite app_assoc.
        -- rewrite !yields_app. rewrite yields_app in Y. simpl in *.
           now rewrite Y.
Qed.

Lemma audio_generator_fifo_until_flag_false_witness :
  exists s' tr,
    run [StartStream; Callback f1; Callback f2; LoopTest; GetChunk;
         StopStream] boot = Some (s', tr) /\
    audio_queue (streamer s') = [f2] /\
    run ([StartStream; Callback f1; Callback f2; LoopTest; GetChunk;
          StopStream] ++ [LoopTest]) boot
      = Some (mkSystem (streamer s') Returned, tr ++ [StopIteration]) /\
    yields (tr ++ [StopIteration]) = [f1].
Proof.
  eexists; eexists. split; [reflexivity|]. split; [reflexivity|].
  split; [|reflexivity].
  apply (audio_generator_fifo_until_flag_false
           [StartStream; Callback f1; Callback f2; LoopTest; GetChunk;
            StopStream] boot _ _ eq_refl); reflexivity.
Defined.

(** C8: a timeout of [get] raises nothing out of the generator and does not
    end it. It leads to the loop test, and while the flag is up the loop
    test leads back into [get]: any number of timeouts in a row leaves the
    generator polling, with no frame yielded and no [StopIteration]. *)
Theorem queue_timeout_repolls (s : System) (n : nat) :
  pc s = AtGet ->
  audio_queue (streamer s) = [] ->
  is_recording (streamer s) = true ->
  step GetTimeout s = Some (mkSystem (streamer s) AtLoopTest, []) /\
  step LoopTest (mkSystem (streamer s) AtLoopTest) = Some (s, []) /\
  run (repoll n) s = Some (s, []).
Proof.
  destruct s as [st p]; simpl; intros -> Q F.
  assert (T : step GetTimeout (mkSystem st AtGet)
              = Some (mkSystem st AtLoopTest, [])).
  { simpl. now rewrite Q. }
  assert (L : step LoopTest (mkSystem st AtLoopTest)
              = Some (mkSystem st AtGet, [])).
  { simpl. now rewrite F. }
  repeat split; try assumption.
  induction n as [|n IH]; [reflexivity|].
  cbn [repoll run]. rewrite T, L. cbn [repoll run] in IH. now rewrite IH.
Qed.

Lemma queue_timeout_repolls_witness :
  run (repoll 3) (mkSystem (start_stream init) AtGet)
  = Some (mkSystem (start_stream init) AtGet, []).
Proof.
  apply (queue_timeout_repolls (mkSystem (start_stream init) AtGet) 3);
    reflexivity.
Defined.

Lemma callback_when_stopped (st : AudioStreamer) (f : frame) :
  is_recording st = false -> _audio_callback st f = st.
Proof. unfold _audio_callback. now intros ->. Qed.

Lemma step_keeps_flag_down a s s' ev :
  is_start a = false ->
  step a s = Some (s', ev) ->
  is_recording (streamer s) = false ->
  is_recording (streamer s') = false /\ puts ev = [] /\
  (is_callback a = true -> s' = s).
Proof.
  destruct s as [st p]; destruct a; simpl; intros NS H F; try discriminate.
  - rewrite callback_when_stopped in H by assumption. rewrite F in H.
    inversion H; subst; auto.
  - inversion H; subst; simpl; repeat split; auto; discriminate.
  - destruct p; try discriminate. rewrite F in H.
    inversion H; subst; simpl; repeat split; auto; discriminate.
  - destruct p; try discriminate. destruct (audio_queue st); try discriminate.
    inversion H; subst; simpl; repeat split; auto; discriminate.
  - destruct p; try discriminate. destruct (audio_queue st); try discriminate.
    inversion H; subst; simpl; repeat split; auto; discriminate.
Qed.

Lemma flag_down_no_put acts : forall s s' tr,
  is_recording (streamer s) = false ->
  forallb (fun a => negb (is_start a)) acts = true ->
  run acts s = Some (s', tr) ->
  puts tr = [] /\ is_recording (streamer s') = false.
Proof.
  induction acts as [|a acts IH]; simpl; intros s s' tr F NS H.
  - inversion H; subst. auto.
  - apply andb_true_iff in NS as [Na NS].
    apply negb_true_iff in Na.
    destruct (step a s) as [[s1 ev1]|] eqn:S1; try discriminate.
    destruct (run acts s1) as [[s2 ev2]|] eqn:R2; try discriminate.
    inversion H; subst; clear H.
    destruct (step_keeps_flag_down _ _ _ _ Na S1 F) as (F1 & P1 & _).
    destruct (IH _ _ _ F1 NS R2) as (P2 & F2).
    split; [|assumption]. now rewrite puts_app, P1, P2.
Qed.

(** C9: once [stop_stream] has lowered the flag, and as long as capture is
    not started again, no schedule makes the callback put a frame: the run
    contains no [Put], and one more callback invocation at its end leaves
    the streamer, hence the queue, as it is. *)
Theorem no_enqueue_after_stop (acts : list action) (self : AudioStreamer)
    (p : gen_pc) (s' : System) (tr : list event) (in_data : frame) :
  forallb (fun a => negb (is_start a)) acts = true ->
  run acts (mkSystem (stop_stream self) p) = Some (s', tr) ->
  puts tr = [] /\
  _audio_callback (streamer s') in_data = streamer s' /\
  audio_queue (_audio_callback (streamer s') in_data)
    = audio_queue (streamer s').
Proof.
  intros NS H.
  destruct (flag_down_no_put acts (mkSystem (stop_stream self) p) s' tr
              eq_refl NS H) as (P & F).
  split; [assumption|].
  now rewrite (callback_when_stopped _ in_data F).
Qed.

Lemma no_enqueue_after_stop_witness :
  exists s' tr,
    run [Callback f2; LoopTest; Callback f1]
        (mkSystem (stop_stream (start_stream init)) AtLoopTest)
      = Some (s', tr) /\
    puts tr = [] /\ audio_queue (streamer s') = [].
Proof.
  eexists; eexists. split; [reflexivity|].
  destruct (no_enqueue_after_stop [Callback f2; LoopTest; Callback f1]
              (start_stream init) AtLoopTest _ _ f1 eq_refl eq_refl)
    as (P & _ & _).
  split; [exact P | reflexivity].
Defined.

End StreamerFacts.

(* ================================================================== *)
(** ** Part VIII: the segment committer and the session log            *)
(* ================================================================== *)

Module TranslatorFacts.

Import Translator Layout Session Examples.

Lemma append_assoc (a b c : string) : (a ^^ b) ^^ c = a ^^ (b ^^ c).
Proof. induction a as [|x a IH]; simpl; [reflexivity | now rewrite IH]. Qed.

Lemma append_nil_r (a : string) : a ^^ EmptyString = a.
Proof. induction a as [|x a IH]; simpl; [reflexivity | now rewrite IH]. Qed.

Lemma concat_str_app (a b : list string) :
  concat_str (a ++ b) = concat_str a ^^ concat_str b.
Proof.
  induction a as [|x a IH]; simpl; [reflexivity|].
  now rewrite IH, append_assoc.
Qed.

(** Evaluate the monadic code down to the string and clock expressions. *)
Ltac run_code :=
  cbv beta iota zeta delta
    [process_result translate_text first_transcript call_translate
     open_log close_log process_stream
     bind ret raise gets modify try_except try_finally
     print print_end datetime_now open_w file_write file_flush file_close
     has_output_file
     set_output_file set_output_filename set_segment_count add_console
     tick add_call contents
     source_language target_language output_file output_filename
     segment_count console clock translate_calls
     name buffer persisted closed alternatives is_final
     fst snd].

Section Steps.

Variable E : Env.

(** A result without alternatives raises before anything else happens. *)
Lemma process_no_alternative te r w :
  alternatives r = [] ->
  process_result E te r w = (w, Raise (Exception "list index out of range")).
Proof. destruct r as [alts fin]; simpl; intros ->. reflexivity. Qed.

(** An interim result only prints. *)
Lemma process_interim te r w t rest :
  is_final r = false -> alternatives r = t :: rest ->
  process_result E te r w = (add_console w ("💭 " ^^ t ^^ cr), Ok tt).
Proof.
  destruct r as [alts fin]; simpl; intros -> ->. run_code.
  now rewrite append_assoc.
Qed.

Ltac finish_step :=
  eexists; split; [reflexivity|];
  unfold same_session, segment_entry, reduced_entry, translation_of,
    error_placeholder;
  cbv beta iota delta
    [source_language target_language output_file output_filename
     segment_count console clock translate_calls];
  repeat split; try reflexivity; try lia;
  try (rewrite !append_assoc; reflexivity).

(** A final result, translation enabled, log open: one entry in the
    documented layout is appended and flushed; a failed translation shows as
    the placeholder. *)
Lemma process_final_translated r w f t rest :
  is_final r = true -> alternatives r = t :: rest ->
  output_file w = Some f -> closed f = false ->
  request E w t <> Raise KeyboardInterrupt ->
  exists w',
    process_result E true r w = (w', Ok tt) /\
    same_session w w' /\
    segment_count w' = segment_count w + 1 /\
    clock w' = clock w + 1 /\
    translate_calls w'
      = translate_calls w
          ++ [(t, target_language w, split_first hyphen (source_language w))] /\
    output_file w'
      = Some (mkFile (name f) EmptyString
                (contents f ^^
                 segment_entry (source_language w) (target_language w)
                   (strftime_HMS E (clock w)) (segment_count w + 1) t
                   (translation_of (request E w t)))
                false).
Proof.
  destruct r as [alts fin]; destruct w as [src tgt ofile ofn n con c calls];
    destruct f as [nm buf per cl]; simpl.
  intros -> -> -> -> NI. unfold request in *. simpl in *. run_code.
  destruct (translate_client E (List.length calls) t tgt
              (split_first hyphen src)) as [tr|[msg|]] eqn:Q; run_code.
  - finish_step.
  - finish_step.
  - contradiction.
Qed.

(** The same event when the operator interrupts the translation call: the
    count has been raised, nothing reaches the log, the interrupt goes on. *)
Lemma process_final_interrupted r w t rest :
  is_final r = true -> alternatives r = t :: rest ->
  request E w t = Raise KeyboardInterrupt ->
  exists w',
    process_result E true r w = (w', Raise KeyboardInterrupt) /\
    same_session w w' /\
    segment_count w' = segment_count w + 1 /\
    clock w' = clock w + 1 /\
    output_file w' = output_file w.
Proof.
  destruct r as [alts fin]; destruct w as [src tgt ofile ofn n con c calls];
    simpl.
  intros -> -> Q. unfold request in *. simpl in *. run_code.
  rewrite Q. finish_step.
Qed.

(** A final result, translation disabled, log open: the reduced entry. *)
Lemma process_final_plain r w f t rest :
  is_final r = true -> alternatives r = t :: rest ->
  output_file w = Some f -> closed f = false ->
  exists w',
    process_result E false r w = (w', Ok tt) /\
    same_session w w' /\
    segment_count w' = segment_count w + 1 /\
    clock w' = clock w + 1 /\
    translate_calls w' = translate_calls w /\
    output_file w'
      = Some (mkFile (name f) EmptyString
                (contents f ^^ reduced_entry (strftime_HMS E (clock w)) t)
                false).
Proof.
  destruct r as [alts fin]; destruct w as [src tgt ofile ofn n con c calls];
    destruct f as [nm buf per cl]; simpl.
  intros -> -> -> ->. run_code. finish_step.
Qed.

(** A final result when no log is open: counted, timed, printed. *)
Lemma process_final_no_log te r w t rest :
  is_final r = true -> alternatives r = t :: rest ->
  output_file w = None ->
  (te = true -> request E w t <> Raise KeyboardInterrupt) ->
  exists w',
    process_result E te r w = (w', Ok tt) /\
    same_session w w' /\
    segment_count w' = segment_count w + 1 /\
    clock w' = clock w + 1 /\
    List.length (translate_calls w')
      = List.length (translate_calls w) + (if te then 1 else 0) /\
    output_file w' = None.
Proof.
  destruct r as [alts fin]; destruct w as [src tgt ofile ofn n con c calls];
    simpl.
  intros -> -> -> NI. unfold request in *. simpl in *. destruct te; run_code.
  - destruct (translate_client E (List.length calls) t tgt
                (split_first hyphen src)) as [tr|[msg|]] eqn:Q; run_code.
    + finish_step. apply length_app.
    + finish_step. apply length_app.
    + now specialize (NI eq_refl).
  - finish_step.
Qed.

(** *** Growth of the log *)

Lemma log_grows_nil w w' :
  output_file w' = output_file w -> file_ok w -> log_grows w w' EmptyString.
Proof.
  unfold log_grows, file_ok. intros ->.
  destruct (output_file w) as [f|]; [|trivial].
  intros C. repeat split; [assumption|]. now rewrite append_nil_r.
Qed.

Lemma log_grows_trans w w1 w2 a b :
  log_grows w w1 a -> log_grows w1 w2 b -> log_grows w w2 (a ^^ b).
Proof.
  unfold log_grows.
  destruct (output_file w) as [f|], (output_file w1) as [f1|],
    (output_file w2) as [f2|]; try tauto.
  intros (C1 & N1 & K1) (C2 & N2 & K2). repeat split; [assumption| |].
  - now rewrite N2.
  - now rewrite K2, K1, append_assoc.
Qed.

Lemma log_grows_ok w w' s : log_grows w w' s -> file_ok w'.
Proof.
  unfold log_grows, file_ok.
  destruct (output_file w) as [f|], (output_file w') as [f'|]; tauto.
Qed.

Lemma same_session_refl w : same_session w w.
Proof. repeat split. Qed.

Lemma same_session_trans w w1 w2 :
  same_session w w1 -> same_session w1 w2 -> same_session w w2.
Proof.
  intros (A & B & C) (A' & B' & C'). repeat split; congruence.
Qed.

(** *** One result, whatever the log handle *)

Lemma process_final_ok te r w t rest :
  is_final r = true -> alternatives r = t :: rest ->
  file_ok w ->
  (te = true -> request E w t <> Raise KeyboardInterrupt) ->
  exists w',
    process_result E te r w = (w', Ok tt) /\
    advanced te w w' 1 /\
    log_grows w w'
      (entry_at E te (source_language w) (target_language w)
                (clock w) (List.length (translate_calls w))
                (segment_count w) (0, t)).
Proof.
  intros F A OKF NI. unfold file_ok in OKF. unfold entry_at, advanced, log_grows.
  rewrite !Nat.add_0_r. fold (request E w t).
  destruct (output_file w) as [f|] eqn:OF.
  - destruct te.
    + destruct (process_final_translated r w f t rest F A OF OKF (NI eq_refl))
        as (w' & R & S & C & K & T & O).
      exists w'. rewrite O, T, length_app.
      split; [assumption|]. split.
      { repeat split; try apply S; try assumption; reflexivity. }
      cbn [closed name]. repeat split.
      unfold contents at 1. cbn [persisted buffer]. apply append_nil_r.
    + destruct (process_final_plain r w f t rest F A OF OKF)
        as (w' & R & S & C & K & T & O).
      exists w'. rewrite O, T.
      split; [assumption|].
      split; [repeat split; try apply S; try assumption; lia|].
      cbn [closed name]. repeat split.
      unfold contents at 1. cbn [persisted buffer]. apply append_nil_r.
  - destruct (process_final_no_log te r w t rest F A OF NI)
      as (w' & R & S & C & K & T & O).
    exists w'. rewrite O.
    split; [assumption|].
    split; [repeat split; try apply S; assumption | exact I].
Qed.

(** Anything but a final result with an alternative leaves counter, clock,
    calls and log alone. *)
Lemma process_interim_idle te r w t rest :
  is_final r = false -> alternatives r = t :: rest -> file_ok w ->
  exists w',
    process_result E te r w = (w', Ok tt) /\
    advanced te w w' 0 /\ log_grows w w' EmptyString.
Proof.
  intros F A OKF. rewrite (process_interim te r w t rest F A).
  eexists; split; [reflexivity|]. split.
  - unfold advanced, same_session. simpl. repeat split; try lia.
    destruct te; lia.
  - now apply log_grows_nil.
Qed.

Lemma advanced_trans te w w1 w2 a b :
  advanced te w w1 a -> advanced te w1 w2 b -> advanced te w w2 (a + b).
Proof.
  intros (S1 & C1 & K1 & T1) (S2 & C2 & K2 & T2).
  split; [eapply same_session_trans; eassumption|].
  repeat split; try lia. destruct te; lia.
Qed.

(** *** The entries of a run of final events *)

Lemma combine_map_S {A} (l : list nat) (r : list A) :
  combine (map S l) r = map (fun p => (S (fst p), snd p)) (combine l r).
Proof.
  revert r; induction l as [|x l IH]; intros [|y r]; simpl;
    try reflexivity. now rewrite IH.
Qed.

Lemma entry_at_shift te src tgt c k n i t :
  entry_at E te src tgt c k n (S i, t)
  = entry_at E te src tgt (S c) (S k) (S n) (i, t).
Proof.
  unfold entry_at.
  replace (c + S i) with (S c + i) by lia.
  replace (k + S i) with (S k + i) by lia.
  replace (n + S i + 1) with (S n + i + 1) by lia.
  reflexivity.
Qed.

Lemma entries_from_cons te src tgt c k n t l :
  entries_from E te src tgt c k n (t :: l)
  = entry_at E te src tgt c k n (0, t)
    :: entries_from E te src tgt (S c) (S k) (S n) l.
Proof.
  unfold entries_from. cbn [List.length seq combine map]. f_equal.
  rewrite <- seq_shift, combine_map_S, map_map.
  apply map_ext. intros [i x]. apply entry_at_shift.
Qed.

Lemma entries_from_app te src tgt l1 : forall c k n l2,
  entries_from E te src tgt c k n (l1 ++ l2)
  = entries_from E te src tgt c k n l1
    ++ entries_from E te src tgt (c + List.length l1) (k + List.length l1)
         (n + List.length l1) l2.
Proof.
  induction l1 as [|t l1 IH]; intros c k n l2.
  - cbn [List.length app]. now rewrite !Nat.add_0_r.
  - cbn [app List.length]. rewrite !entries_from_cons, IH.
    cbn [app]. now rewrite !Nat.add_succ_r.
Qed.

(** Without translation the entries do not depend on the call number. *)
Lemma entries_from_calls te src tgt c k j n l :
  entries_from E te src tgt c (k + (if te then j else 0)) n l
  = entries_from E te src tgt c (k + j) n l.
Proof.
  destruct te; [reflexivity|].
  unfold entries_from. apply map_ext. now intros [i x].
Qed.

Lemma length_entries_from te src tgt c k n l :
  List.length (entries_from E te src tgt c k n l) = List.length l.
Proof.
  unfold entries_from.
  now rewrite length_map, length_combine, length_seq, Nat.min_id.
Qed.

(** *** The loops on a clean stream *)

Lemma for_each_clean te rs : forall w,
  forallb has_alternative rs = true ->
  file_ok w ->
  (te = true -> uninterrupted E) ->
  exists w',
    for_each (process_result E te) rs w = (w', Ok tt) /\
    advanced te w w' (List.length (final_transcripts rs)) /\
    log_grows w w'
      (concat_str
         (entries_from E te (source_language w) (target_language w)
            (clock w) (List.length (translate_calls w)) (segment_count w)
            (final_transcripts rs))).
Proof.
  induction rs as [|r rs IH]; intros w CL OKF NI.
  - exists w. split; [reflexivity|]. split.
    + unfold advanced. cbn. repeat split; try lia. destruct te; lia.
    + now apply log_grows_nil.
  - cbn [forallb] in CL. apply andb_true_iff in CL as [HA CL].
    unfold has_alternative in HA.
    destruct (alternatives r) as [|t rest] eqn:A; [discriminate|].
    destruct (is_final r) eqn:F.
    + destruct (process_final_ok te r w t rest F A OKF) as (w1 & R1 & A1 & G1).
      { intros Te. apply (NI Te). }
      destruct (IH w1 CL (log_grows_ok _ _ _ G1) NI) as (w' & R & A2 & G2).
      exists w'. split.
      { cbn [for_each]. unfold bind. now rewrite R1. }
      assert (FT : final_transcripts (r :: rs) = t :: final_transcripts rs).
      { unfold final_transcripts. cbn [flat_map]. now rewrite F, A. }
      rewrite FT. cbn [List.length]. split.
      { exact (advanced_trans _ _ _ _ 1 _ A1 A2). }
      rewrite entries_from_cons. cbn [concat_str].
      eapply log_grows_trans; [exact G1|].
      destruct A1 as ((S1 & S2 & _) & C1 & K1 & T1).
      rewrite S1, S2, C1, K1, T1, entries_from_calls in G2.
      now rewrite !Nat.add_1_r in G2.
    + destruct (process_interim_idle te r w t rest F A OKF)
        as (w1 & R1 & A1 & G1).
      destruct (IH w1 CL (log_grows_ok _ _ _ G1) NI) as (w' & R & A2 & G2).
      exists w'. split.
      { cbn [for_each]. unfold bind. now rewrite R1. }
      assert (FT : final_transcripts (r :: rs) = final_transcripts rs).
      { unfold final_transcripts. cbn [flat_map]. now rewrite F. }
      rewrite FT. split.
      { exact (advanced_trans _ _ _ _ 0 _ A1 A2). }
      destruct A1 as ((S1 & S2 & _) & C1 & K1 & T1).
      rewrite S1, S2, C1, K1, T1, entries_from_calls in G2.
      rewrite !Nat.add_0_r in G2.
      exact (log_grows_trans _ _ _ EmptyString _ G1 G2).
Qed.

Lemma final_transcripts_app a b :
  final_transcripts (a ++ b) = final_transcripts a ++ final_transcripts b.
Proof. unfold final_transcripts. apply flat_map_app. Qed.

Lemma for_responses_clean te items : forall w,
  clean items = true ->
  file_ok w ->
  (te = true -> uninterrupted E) ->
  exists w',
    for_responses (process_result E te) items w = (w', Ok tt) /\
    advanced te w w' (List.length (final_transcripts (results_of items))) /\
    log_grows w w'
      (concat_str
         (entries_from E te (source_language w) (target_language w)
            (clock w) (List.length (translate_calls w)) (segment_count w)
            (final_transcripts (results_of items)))).
Proof.
  induction items as [|it items IH]; intros w CL OKF NI.
  - exists w. split; [reflexivity|]. split.
    + unfold advanced. cbn. repeat split; try lia. destruct te; lia.
    + now apply log_grows_nil.
  - unfold clean in CL. cbn [forallb] in CL.
    apply andb_true_iff in CL as [CI CL].
    destruct it as [rs|e]; [|discriminate]. cbn [clean_item] in CI.
    destruct (for_each_clean te rs w CI OKF NI) as (w1 & R1 & A1 & G1).
    destruct (IH w1 CL (log_grows_ok _ _ _ G1) NI) as (w' & R & A2 & G2).
    exists w'. split.
    { cbn [for_responses]. unfold bind. now rewrite R1. }
    assert (FT : final_transcripts (results_of (Response rs :: items))
                 = final_transcripts rs
                   ++ final_transcripts (results_of items)).
    { unfold results_of. cbn [flat_map]. apply final_transcripts_app. }
    rewrite FT, length_app. split.
    { exact (advanced_trans _ _ _ _ _ _ A1 A2). }
    rewrite entries_from_app, concat_str_app.
    eapply log_grows_trans; [exact G1|].
    destruct A1 as ((S1 & S2 & _) & C1 & K1 & T1).
    now rewrite S1, S2, C1, K1, T1, entries_from_calls in G2.
Qed.

(** *** Opening and closing the log *)

Lemma open_log_spec w :
  exists w1,
    open_log E w = (w1, Ok tt) /\
    source_language w1 = source_language w /\
    target_language w1 = target_language w /\
    segment_count w1 = segment_count w /\
    clock w1 = clock w + 2 /\
    translate_calls w1 = translate_calls w /\
    output_filename w1 = Some (log_name E (clock w)) /\
    output_file w1
      = Some (mkFile (log_name E (clock w)) EmptyString
                (header (source_language w) (target_language w)
                        (str_datetime E (S (clock w))))
                false).
Proof.
  destruct w as [src tgt ofile ofn n con c calls]. run_code.
  eexists; split; [reflexivity|].
  unfold log_name, header.
  cbv beta iota delta
    [source_language target_language output_file output_filename
     segment_count console clock translate_calls].
  repeat split; try reflexivity; try lia.
  repeat (progress (rewrite ?append_assoc; cbn [append])). reflexivity.
Qed.

Lemma close_log_spec w f fn :
  output_file w = Some f -> closed f = false ->
  output_filename w = Some fn ->
  exists w',
    close_log E w = (w', Ok tt) /\
    same_session w w' /\
    segment_count w' = segment_count w /\
    output_file w'
      = Some (mkFile (name f) EmptyString
                (contents f ^^
                 trailer (str_datetime E (clock w)) (segment_count w))
                true).
Proof.
  destruct w as [src tgt ofile ofn n con c calls];
    destruct f as [nm buf per cl]; simpl.
  intros -> -> ->. run_code.
  eexists; split; [reflexivity|].
  unfold same_session, trailer.
  cbv beta iota delta
    [source_language target_language output_file output_filename
     segment_count console clock translate_calls].
  repeat split; try reflexivity.
  rewrite !append_assoc. reflexivity.
Qed.

Lemma close_log_none w :
  output_file w = None -> close_log E w = (w, Ok tt).
Proof.
  destruct w as [src tgt ofile ofn n con c calls]; simpl. intros ->.
  reflexivity.
Qed.

(** [process_stream] is its loop, guarded, started in [loop_start]. *)
Lemma process_stream_loop (te save : bool) items w0 w1 :
  (if save then open_log E else @ret unit tt) w0 = (w1, Ok tt) ->
  process_stream E items te save w0
  = try_finally
      (try_except (for_responses (process_result E te) items)
                  (fun e => print (nl ^^ "❌ Error: " ^^ e)))
      (close_log E) (loop_start te w1).
Proof.
  intros H. unfold process_stream. unfold bind at 1. rewrite H.
  unfold loop_start. destruct te; reflexivity.
Qed.

Lemma loop_start_spec te w :
  same_session w (loop_start te w) /\
  segment_count (loop_start te w) = 0 /\
  clock (loop_start te w) = clock w /\
  translate_calls (loop_start te w) = translate_calls w /\
  output_file (loop_start te w) = output_file w.
Proof. unfold loop_start, same_session. destruct te; repeat split. Qed.

(** *** A whole session on a clean stream *)

Lemma process_stream_clean te items w0 :
  clean items = true ->
  (te = true -> uninterrupted E) ->
  exists w' f,
    process_stream E items te true w0 = (w', Ok tt) /\
    segment_count w' = List.length (final_transcripts (results_of items)) /\
    output_file w' = Some f /\
    closed f = true /\ buffer f = EmptyString /\
    persisted f
    = header (source_language w0) (target_language w0)
             (str_datetime E (S (clock w0)))
      ^^ concat_str
           (entries_from E te (source_language w0) (target_language w0)
              (clock w0 + 2) (List.length (translate_calls w0)) 0
              (final_transcripts (results_of items)))
      ^^ trailer
           (str_datetime E
              (clock w0 + 2
               + List.length (final_transcripts (results_of items))))
           (List.length (final_transcripts (results_of items))).
Proof.
  intros CL NI.
  destruct (open_log_spec w0) as (w1 & R1 & S1 & T1 & N1 & C1 & L1 & F1 & O1).
  rewrite (process_stream_loop te true items w0 w1 R1).
  destruct (loop_start_spec te w1) as ((S2 & T2 & F2) & N2 & C2 & L2 & O2).
  assert (OK2 : file_ok (loop_start te w1)).
  { unfold file_ok. now rewrite O2, O1. }
  destruct (for_responses_clean te items (loop_start te w1) CL OK2 NI)
    as (w3 & R3 & ((S3 & T3 & F3) & N3 & C3 & L3) & G3).
  unfold log_grows in G3. rewrite O2, O1 in G3.
  destruct (output_file w3) as [f3|] eqn:O3; [|contradiction].
  destruct G3 as (CF3 & NM3 & K3).
  assert (FN3 : output_filename w3 = Some (log_name E (clock w0))) by congruence.
  destruct (close_log_spec w3 f3 _ O3 CF3 FN3) as (w4 & R4 & _ & N4 & O4).
  exists w4. eexists. split.
  { unfold try_finally, try_except. now rewrite R3, R4. }
  split; [rewrite N4, N3, N2; reflexivity|].
  split; [exact O4|]. cbn [closed buffer persisted].
  repeat split.
  rewrite K3. unfold contents at 1. cbn [persisted buffer].
  rewrite append_nil_r, append_assoc.
  rewrite S2, T2, S1, T1, C2, C1, N2, L2, L1, N3, N2, C3, C2, C1.
  reflexivity.
Qed.

Lemma process_stream_clean_no_log te items w0 :
  clean items = true ->
  (te = true -> uninterrupted E) ->
  output_file w0 = None ->
  exists w',
    process_stream E items te false w0 = (w', Ok tt) /\
    segment_count w' = List.length (final_transcripts (results_of items)) /\
    output_file w' = None.
Proof.
  intros CL NI O0.
  rewrite (process_stream_loop te false items w0 w0 eq_refl).
  destruct (loop_start_spec te w0) as (_ & N2 & _ & _ & O2).
  assert (OK2 : file_ok (loop_start te w0)).
  { unfold file_ok. now rewrite O2, O0. }
  destruct (for_responses_clean te items (loop_start te w0) CL OK2 NI)
    as (w3 & R3 & (_ & N3 & _) & G3).
  unfold log_grows in G3. rewrite O2, O0 in G3.
  destruct (output_file w3) as [f3|] eqn:O3; [contradiction|].
  exists w3. split.
  { unfold try_finally, try_except. now rewrite R3, (close_log_none w3 O3). }
  split; [now rewrite N3, N2 | exact O3].
Qed.

(** *** The loops on any stream *)

Lemma advanced_zero te w w' :
  same_session w w' -> segment_count w' = segment_count w ->
  clock w' = clock w -> translate_calls w' = translate_calls w ->
  advanced te w w' 0.
Proof.
  intros S C K T. unfold advanced. rewrite C, K, T.
  repeat split; try apply S; try lia. destruct te; lia.
Qed.

Lemma taken_nothing te w w' o all :
  file_ok w -> same_session w w' -> output_file w' = output_file w ->
  match o with
  | Ok _ => all = [] /\ advanced te w w' 0
  | Raise _ => counted E w w' o []
  end ->
  taken E te w w' o [] all.
Proof.
  intros OKF S O H. unfold taken.
  split; [now exists all|]. split; [assumption|].
  split; [now apply log_grows_nil|].
  destruct o as [[]|e]; [|assumption]. destruct H as [-> A]. auto.
Qed.

Lemma process_result_taken te r w w' o :
  file_ok w ->
  process_result E te r w = (w', o) ->
  exists ts, taken E te w w' o ts (final_transcripts [r]).
Proof.
  intros OKF R. unfold final_transcripts. cbn [flat_map]. rewrite app_nil_r.
  destruct (alternatives r) as [|t rest] eqn:A.
  { rewrite (process_no_alternative te r w A) in R. inversion R; subst.
    exists []. apply taken_nothing; auto using same_session_refl.
    left. cbn. lia. }
  destruct (is_final r) eqn:F.
  2:{ destruct (process_interim_idle te r w t rest F A OKF)
        as (w1 & R1 & A1 & G1).
      rewrite R1 in R. inversion R; subst.
      exists []. unfold taken. split; [now exists []|].
      split; [apply A1|]. split; [exact G1 | auto]. }
  assert (OK1 : (te = true -> request E w t <> Raise KeyboardInterrupt) ->
                exists ts, taken E te w w' o ts [t]).
  { intros NI.
    destruct (process_final_ok te r w t rest F A OKF NI)
      as (w1 & R1 & A1 & G1).
    rewrite R1 in R. inversion R; subst.
    exists [t]. unfold taken. split; [now exists []|].
    split; [apply A1|]. split; [|auto].
    rewrite entries_from_cons. cbn [concat_str].
    unfold entries_from. cbn [List.length seq combine map concat_str].
    now rewrite append_nil_r. }
  destruct te; [|apply OK1; discriminate].
  destruct (request E w t) as [tr|[msg|]] eqn:Q;
    try (apply OK1; intros _; discriminate).
  destruct (process_final_interrupted r w t rest F A Q)
    as (w1 & R1 & S1 & C1 & _ & O1).
  rewrite R1 in R. inversion R; subst.
  exists []. unfold taken. split; [now exists [t]|].
  split; [assumption|]. split; [now apply log_grows_nil|].
  right. split; [reflexivity|]. split.
  - intros U. exact (U _ _ _ _ Q).
  - cbn. lia.
Qed.

(** What was taken up first, then what was taken up from there. *)
Lemma taken_then te w w1 w' o ts1 ts2 all1 all2 :
  taken E te w w1 (Ok tt) ts1 all1 ->
  taken E te w1 w' o ts2 all2 ->
  taken E te w w' o (ts1 ++ ts2) (all1 ++ all2).
Proof.
  intros (_ & S1 & G1 & E1 & A1) ((rest & P2) & S2 & G2 & H2).
  subst all1. unfold taken.
  split; [exists rest; now rewrite P2, !app_assoc|].
  split; [eapply same_session_trans; eassumption|].
  assert (C1 : segment_count w1 = segment_count w + List.length ts1)
    by apply A1.
  split.
  - rewrite entries_from_app, concat_str_app.
    eapply log_grows_trans; [exact G1|].
    destruct A1 as ((Sa & Sb & _) & Ca & Ka & Ta).
    now rewrite Sa, Sb, Ca, Ka, Ta, entries_from_calls in G2.
  - destruct o as [[]|e].
    + destruct H2 as [E2 A2]. split; [now rewrite E2|].
      rewrite length_app. exact (advanced_trans _ _ _ _ _ _ A1 A2).
    + unfold counted in *. rewrite length_app.
      destruct H2 as [H2|(O & U & H2)];
        [left | right; repeat split; auto]; lia.
Qed.

Lemma taken_cut te w w1 e ts all1 all2 :
  taken E te w w1 (Raise e) ts all1 ->
  taken E te w w1 (Raise e) ts (all1 ++ all2).
Proof.
  intros ((rest & ->) & H). split; [|exact H].
  exists (rest ++ all2). now rewrite app_assoc.
Qed.

Lemma taken_ok te w w' o ts all : taken E te w w' o ts all -> file_ok w'.
Proof. intros (_ & _ & G & _). exact (log_grows_ok _ _ _ G). Qed.

Lemma for_each_taken te rs : forall w w' o,
  file_ok w ->
  for_each (process_result E te) rs w = (w', o) ->
  exists ts, taken E te w w' o ts (final_transcripts rs).
Proof.
  induction rs as [|r rs IH]; intros w w' o OKF R.
  - inversion R; subst. exists [].
    apply taken_nothing; auto using same_session_refl.
    split; [reflexivity|]. apply advanced_zero; auto using same_session_refl.
  - cbn [for_each] in R. unfold bind in R.
    destruct (process_result E te r w) as [w1 o1] eqn:R1.
    destruct (process_result_taken te r w w1 o1 OKF R1) as (ts1 & H1).
    change (r :: rs) with ([r] ++ rs). rewrite final_transcripts_app.
    destruct o1 as [[]|e].
    + destruct (IH w1 w' o (taken_ok _ _ _ _ _ _ H1) R) as (ts2 & H2).
      exists (ts1 ++ ts2). exact (taken_then _ _ _ _ _ _ _ _ _ H1 H2).
    + inversion R; subst. exists ts1. now apply taken_cut.
Qed.

Lemma for_responses_taken te items : forall w w' o,
  file_ok w ->
  for_responses (process_result E te) items w = (w', o) ->
  exists ts, taken E te w w' o ts (final_transcripts (results_of items)).
Proof.
  induction items as [|it items IH]; intros w w' o OKF R.
  - inversion R; subst. exists [].
    apply taken_nothing; auto using same_session_refl.
    split; [reflexivity|]. apply advanced_zero; auto using same_session_refl.
  - destruct it as [rs|e].
    + cbn [for_responses] in R. unfold bind in R.
      destruct (for_each (process_result E te) rs w) as [w1 o1] eqn:R1.
      destruct (for_each_taken te rs w w1 o1 OKF R1) as (ts1 & H1).
      change (results_of (Response rs :: items))
        with (rs ++ results_of items).
      rewrite final_transcripts_app.
      destruct o1 as [[]|e].
      * destruct (IH w1 w' o (taken_ok _ _ _ _ _ _ H1) R) as (ts2 & H2).
        exists (ts1 ++ ts2). exact (taken_then _ _ _ _ _ _ _ _ _ H1 H2).
      * inversion R; subst. exists ts1. now apply taken_cut.
    + inversion R; subst. exists [].
      apply taken_nothing; auto using same_session_refl.
      left. cbn. lia.
Qed.

(** The [except Exception] handler only prints. *)
Lemma try_except_print (m : M unit) w w3 o3 :
  m w = (w3, o3) ->
  exists w3' o3',
    try_except m (fun e => print (nl ^^ "❌ Error: " ^^ e)) w = (w3', o3') /\
    same_session w3 w3' /\
    output_file w3' = output_file w3 /\
    segment_count w3' = segment_count w3 /\
    clock w3' = clock w3.
Proof.
  intros R. unfold try_except. rewrite R.
  destruct o3 as [[]|[msg|]].
  - exists w3, (Ok tt). repeat split.
  - eexists; eexists. split; [reflexivity|]. repeat split.
  - exists w3, (Raise KeyboardInterrupt). repeat split.
Qed.

(** *** A whole session on any stream *)

Lemma process_stream_any te items w0 :
  exists w' o f ts date,
    process_stream E items te true w0 = (w', o) /\
    is_prefix ts (final_transcripts (results_of items)) /\
    output_file w' = Some f /\
    closed f = true /\ buffer f = EmptyString /\
    persisted f
    = header (source_language w0) (target_language w0)
             (str_datetime E (S (clock w0)))
      ^^ concat_str
           (entries_from E te (source_language w0) (target_language w0)
              (clock w0 + 2) (List.length (translate_calls w0)) 0 ts)
      ^^ trailer date (segment_count w') /\
    (segment_count w' = List.length ts \/
     (~ uninterrupted E /\ segment_count w' = List.length ts + 1)).
Proof.
  destruct (open_log_spec w0) as (w1 & R1 & S1 & T1 & N1 & C1 & L1 & F1 & O1).
  rewrite (process_stream_loop te true items w0 w1 R1).
  destruct (loop_start_spec te w1) as ((S2 & T2 & F2) & N2 & C2 & L2 & O2).
  assert (OK2 : file_ok (loop_start te w1)).
  { unfold file_ok. now rewrite O2, O1. }
  destruct (for_responses (process_result E te) items (loop_start te w1))
    as [w3 o3] eqn:R3.
  destruct (for_responses_taken te items _ _ _ OK2 R3)
    as (ts & PF & (S3 & T3 & F3) & G3 & CT).
  destruct (try_except_print _ _ _ _ R3)
    as (w3' & o3' & R3' & (S3' & T3' & F3') & O3' & N3' & C3').
  unfold log_grows in G3. rewrite O2, O1 in G3.
  destruct (output_file w3) as [f3|] eqn:O3; [|contradiction].
  destruct G3 as (CF3 & NM3 & K3).
  assert (FN3 : output_filename w3' = Some (log_name E (clock w0)))
    by congruence.
  destruct (close_log_spec w3' f3 _ O3' CF3 FN3) as (w4 & R4 & _ & N4 & O4).
  exists w4, o3'. eexists. exists ts, (str_datetime E (clock w3')). split.
  { unfold try_finally. now rewrite R3', R4. }
  split; [exact PF|]. split; [exact O4|]. cbn [closed buffer persisted].
  repeat split.
  - rewrite K3. unfold contents at 1. cbn [persisted buffer].
    rewrite append_nil_r, append_assoc, N4.
    now rewrite S2, T2, S1, T1, C2, C1, N2, L2, L1.
  - rewrite N4, N3'.
    assert (CT' : counted E (loop_start te w1) w3 o3 ts).
    { destruct o3 as [[]|e]; [|exact CT]. left. apply CT. }
    unfold counted in CT'. rewrite N2 in CT'.
    destruct CT' as [CT'|(_ & U & CT')]; [left | right; split]; auto.
Qed.

Lemma nth_error_entries_from te src tgt l : forall c k n i t,
  nth_error l i = Some t ->
  nth_error (entries_from E te src tgt c k n l) i
  = Some (entry_at E te src tgt c k n (i, t)).
Proof.
  induction l as [|x l IH]; intros c k n [|i] t H; try discriminate.
  - cbn in H. inversion H; subst. now rewrite entries_from_cons.
  - cbn in H. rewrite entries_from_cons. cbn [nth_error].
    rewrite (IH _ _ _ _ _ H). now rewrite entry_at_shift.
Qed.

(** With translation enabled, a final result makes exactly one request,
    whatever becomes of it. *)
Lemma process_final_request r w t rest :
  is_final r = true -> alternatives r = t :: rest ->
  translate_calls (fst (process_result E true r w))
  = translate_calls w
      ++ [(t, target_language w, split_first hyphen (source_language w))].
Proof.
  destruct r as [alts fin]; destruct w as [src tgt ofile ofn n con c calls];
    simpl.
  intros -> ->. run_code.
  destruct (translate_client E (List.length calls) t tgt
              (split_first hyphen src)) as [tr|[msg|]]; run_code;
    try reflexivity;
    destruct ofile as [[nm buf per [|]]|]; reflexivity.
Qed.

(** Without translation no request is made. *)
Lemma process_plain_no_request r w :
  translate_calls (fst (process_result E false r w)) = translate_calls w.
Proof.
  destruct r as [[|t rest] [|]]; destruct w as [src tgt ofile ofn n con c calls];
    run_code; try reflexivity.
  destruct ofile as [[nm buf per [|]]|]; reflexivity.
Qed.

End Steps.

(** *** [split('-')[0]] *)

Lemma split_first_prefix sep s :
  exists rest,
    s = split_first sep s ^^ rest /\
    (rest = EmptyString \/ exists r, rest = String sep r).
Proof.
  induction s as [|c s (rest & IH & K)]; cbn [split_first].
  - exists EmptyString. auto.
  - destruct (Ascii.eqb c sep) eqn:Q.
    + apply Ascii.eqb_eq in Q. subst c.
      exists (String sep s). split; [reflexivity | right; eauto].
    + exists rest. split; [cbn; now rewrite <- IH | assumption].
Qed.

Lemma split_first_no_sep sep s pre post :
  split_first sep s <> pre ^^ String sep post.
Proof.
  revert pre; induction s as [|c s IH]; intros pre; cbn [split_first].
  - destruct pre; discriminate.
  - destruct (Ascii.eqb c sep) eqn:Q.
    + destruct pre; discriminate.
    + destruct pre as [|p pre]; cbn [append]; intros H; inversion H; subst.
      * now rewrite Ascii.eqb_refl in Q.
      * eapply IH; eassumption.
Qed.

(** *** Properties of the committer and of the log *)

(** C7: a result that is not final produces no segment: the log handle and
    its contents, the segment counter, the clock and the translation calls
    are what they were, whether or not translation is enabled; when the
    result carries a transcript, all that happens is one transient line on
    the console. *)
Theorem interim_result_leaves_no_trace (E : Env) (te : bool) (r : Result)
    (w : World) :
  is_final r = false ->
  output_file (fst (process_result E te r w)) = output_file w /\
  segment_count (fst (process_result E te r w)) = segment_count w /\
  clock (fst (process_result E te r w)) = clock w /\
  translate_calls (fst (process_result E te r w)) = translate_calls w /\
  (forall t rest, alternatives r = t :: rest ->
     process_result E te r w = (add_console w ("💭 " ^^ t ^^ cr), Ok tt)).
Proof.
  intros F. destruct (alternatives r) as [|t rest] eqn:A.
  - rewrite (process_no_alternative E te r w A). repeat split. discriminate.
  - rewrite (process_interim E te r w t rest F A). repeat split.
    intros t' rest' H. now inversion H.
Qed.

Lemma interim_result_leaves_no_trace_witness :
  output_file (fst (process_result steady true (interim "Good") session))
    = None /\
  segment_count (fst (process_result steady true (interim "Good") session))
    = 0.
Proof.
  destruct (interim_result_leaves_no_trace steady true (interim "Good")
              session eq_refl) as (O & C & _).
  split; [exact O | exact C].
Defined.

Lemma final_transcripts_filter rs :
  final_transcripts (filter is_final rs) = final_transcripts rs.
Proof.
  induction rs as [|r rs IH]; [reflexivity|].
  cbn [filter]. unfold final_transcripts in *.
  destruct (is_final r) eqn:F; cbn [flat_map]; rewrite F, IH; reflexivity.
Qed.

Lemma results_of_cons rs items :
  results_of (Response rs :: items) = rs ++ results_of items.
Proof. reflexivity. Qed.

Lemma final_transcripts_drop_interim items :
  final_transcripts (results_of (drop_interim items))
  = final_transcripts (results_of items).
Proof.
  induction items as [|[rs|e] items IH]; [reflexivity| |exact IH].
  cbn [drop_interim map]. fold (drop_interim items).
  rewrite !results_of_cons, !final_transcripts_app, IH.
  now rewrite final_transcripts_filter.
Qed.

Lemma has_alternative_filter rs :
  forallb has_alternative rs = true ->
  forallb has_alternative (filter is_final rs) = true.
Proof.
  induction rs as [|r rs IH]; [reflexivity|].
  cbn [forallb filter]. intros H. apply andb_true_iff in H as [A B].
  destruct (is_final r); [cbn [forallb]; rewrite A|]; auto.
Qed.

Lemma clean_drop_interim items :
  clean items = true -> clean (drop_interim items) = true.
Proof.
  unfold clean. induction items as [|[rs|e] items IH]; intros H;
    [reflexivity| |discriminate].
  cbn [forallb clean_item] in H. apply andb_true_iff in H as [H1 H2].
  cbn [drop_interim map forallb clean_item]. fold (drop_interim items).
  now rewrite (IH H2), (has_alternative_filter _ H1).
Qed.

(** Seen from the log, the interim results might as well not have been
    delivered: on a clean stream the session with and without them ends with
    the same counter and the same persisted text. *)
Lemma interim_results_do_not_reach_the_log (E : Env)
    (items : list stream_item) (te : bool) (w0 : World) :
  clean items = true ->
  (te = true -> uninterrupted E) ->
  exists w1 w2 f1 f2,
    process_stream E items te true w0 = (w1, Ok tt) /\
    process_stream E (drop_interim items) te true w0 = (w2, Ok tt) /\
    segment_count w1 = segment_count w2 /\
    output_file w1 = Some f1 /\ output_file w2 = Some f2 /\
    persisted f1 = persisted f2.
Proof.
  intros CL NI.
  destruct (process_stream_clean E te items w0 CL NI)
    as (w1 & f1 & R1 & C1 & O1 & _ & _ & P1).
  destruct (process_stream_clean E te (drop_interim items) w0
              (clean_drop_interim _ CL) NI)
    as (w2 & f2 & R2 & C2 & O2 & _ & _ & P2).
  rewrite final_transcripts_drop_interim in C2, P2.
  exists w1, w2, f1, f2. repeat split; try assumption; congruence.
Qed.

(** C5: when the commit of a final result returns, the entry of the segment
    (the documented four lines with translation, the reduced line without)
    has been handed over in full: nothing is left in the buffer, the file is
    still open, and the transcript occurs in the persisted text. *)
Theorem segment_flushed_on_commit (E : Env) (te : bool) (r : Result)
    (w : World) (f : File) (t : string) (rest : list string) :
  is_final r = true -> alternatives r = t :: rest ->
  output_file w = Some f -> closed f = false ->
  (te = true -> request E w t <> Raise KeyboardInterrupt) ->
  exists w' f',
    process_result E te r w = (w', Ok tt) /\
    output_file w' = Some f' /\
    closed f' = false /\
    buffer f' = EmptyString /\
    persisted f'
    = contents f ^^
      (if te
       then segment_entry (source_language w) (target_language w)
              (strftime_HMS E (clock w)) (segment_count w + 1) t
              (translation_of (request E w t))
       else reduced_entry (strftime_HMS E (clock w)) t) /\
    occurs_in t (persisted f').
Proof.
  intros F A OF CF NI. destruct te.
  - destruct (process_final_translated E r w f t rest F A OF CF (NI eq_refl))
      as (w' & R & _ & _ & _ & _ & O).
    exists w'. eexists. split; [exact R|]. split; [exact O|].
    cbn [closed buffer persisted]. repeat split.
    unfold occurs_in, segment_entry.
    exists (contents f ^^ "[" ^^ strftime_HMS E (clock w) ^^ "] Segment "
              ^^ string_of_nat (segment_count w + 1) ^^ nl
              ^^ "Original (" ^^ source_language w ^^ "): ").
    eexists. rewrite !append_assoc. reflexivity.
  - destruct (process_final_plain E r w f t rest F A OF CF)
      as (w' & R & _ & _ & _ & _ & O).
    exists w'. eexists. split; [exact R|]. split; [exact O|].
    cbn [closed buffer persisted]. repeat split.
    unfold occurs_in, reduced_entry.
    exists (contents f ^^ "[" ^^ strftime_HMS E (clock w) ^^ "] ").
    eexists. rewrite !append_assoc. reflexivity.
Qed.

Lemma steady_uninterrupted : uninterrupted steady.
Proof.
  intros k text tgt src. unfold steady. cbn [translate_client].
  destruct (Nat.even k); discriminate.
Qed.

Lemma segment_flushed_on_commit_witness :
  exists w' f',
    process_result steady true (final "Let us pray.") open_session
      = (w', Ok tt) /\
    output_file w' = Some f' /\
    closed f' = false /\
    buffer f' = EmptyString /\
    occurs_in "Let us pray." (persisted f').
Proof.
  destruct (segment_flushed_on_commit steady true (final "Let us pray.")
              open_session log_file "Let us pray." []
              eq_refl eq_refl eq_refl eq_refl
              (fun _ => steady_uninterrupted _ _ _ _))
    as (w' & f' & R & O & C & B & _ & OC).
  exists w', f'. repeat split; assumption.
Defined.

(** C4: when the translation of segment [k] fails, [translate_text] hands back
    the placeholder instead of raising; the segment is counted and logged
    with the placeholder in its translation line, and the next final result
    is counted and logged after it as segment [k+1]. *)
Theorem translation_failure_is_not_fatal (E : Env) (r1 r2 : Result)
    (w : World) (f : File) (t1 t2 msg : string) (rest1 rest2 : list string) :
  is_final r1 = true -> alternatives r1 = t1 :: rest1 ->
  is_final r2 = true -> alternatives r2 = t2 :: rest2 ->
  output_file w = Some f -> closed f = false ->
  request E w t1 = Raise (Exception msg) ->
  translate_client E (S (List.length (translate_calls w))) t2
    (target_language w) (split_first hyphen (source_language w))
    <> Raise KeyboardInterrupt ->
  snd (translate_text E t1 w) = Ok (error_placeholder msg) /\
  exists w' f',
    for_each (process_result E true) [r1; r2] w = (w', Ok tt) /\
    segment_count w' = segment_count w + 2 /\
    output_file w' = Some f' /\
    closed f' = false /\
    buffer f' = EmptyString /\
    persisted f'
    = contents f
      ^^ segment_entry (source_language w) (target_language w)
           (strftime_HMS E (clock w)) (segment_count w + 1) t1
           (error_placeholder msg)
      ^^ segment_entry (source_language w) (target_language w)
           (strftime_HMS E (clock w + 1)) (segment_count w + 2) t2
           (translation_of
              (translate_client E (S (List.length (translate_calls w))) t2
                 (target_language w)
                 (split_first hyphen (source_language w)))).
Proof.
  intros F1 A1 F2 A2 OF CF Q1 Q2. split.
  - unfold request in Q1. destruct w as [src tgt ofile ofn n con c calls].
    cbn [translate_calls target_language source_language] in Q1.
    run_code. now rewrite Q1.
  - assert (N1 : request E w t1 <> Raise KeyboardInterrupt)
      by (rewrite Q1; discriminate).
    destruct (process_final_translated E r1 w f t1 rest1 F1 A1 OF CF N1)
      as (w1 & R1 & (S1 & T1 & _) & C1 & K1 & L1 & O1).
    assert (N2 : request E w1 t2 <> Raise KeyboardInterrupt).
    { unfold request. rewrite L1, length_app, S1, T1. cbn [List.length].
      now rewrite Nat.add_1_r. }
    destruct (process_final_translated E r2 w1 _ t2 rest2 F2 A2 O1 eq_refl N2)
      as (w2 & R2 & _ & C2 & _ & _ & O2).
    exists w2. eexists. split.
    { cbn [for_each]. unfold bind. rewrite R1, R2. reflexivity. }
    split; [lia|]. split; [exact O2|].
    cbn [closed buffer persisted name]. repeat split.
    unfold contents at 1. cbn [persisted buffer].
    rewrite append_nil_r, append_assoc.
    unfold request at 2. rewrite L1, length_app, S1, T1, C1, K1, Q1.
    cbn [List.length translation_of].
    replace (List.length (translate_calls w) + 1)
      with (S (List.length (translate_calls w))) by lia.
    replace (segment_count w + 1 + 1) with (segment_count w + 2) by lia.
    reflexivity.
Qed.

Lemma translation_failure_is_not_fatal_witness :
  snd (translate_text steady "Let us pray." after_first)
    = Ok (error_placeholder "boom") /\
  exists w' f',
    for_each (process_result steady true)
             [final "Let us pray."; final "Amen."] after_first
      = (w', Ok tt) /\
    segment_count w' = segment_count after_first + 2 /\
    output_file w' = Some f' /\
    closed f' = false.
Proof.
  assert (O : output_file after_first = Some after_first_file)
    by (vm_compute; reflexivity).
  assert (CF : closed after_first_file = false)
    by (vm_compute; reflexivity).
  assert (Q : request steady after_first "Let us pray."
              = Raise (Exception "boom"))
    by (vm_compute; reflexivity).
  destruct (translation_failure_is_not_fatal steady
              (final "Let us pray.") (final "Amen.") after_first
              after_first_file "Let us pray." "Amen." "boom" [] []
              eq_refl eq_refl eq_refl eq_refl O CF Q
              (steady_uninterrupted _ _ _ _))
    as (T & w' & f' & R & C & O' & CF' & _).
  split; [exact T|]. exists w', f'. repeat split; assumption.
Defined.

(** C6, as stated, fails: with the source language configured as en-US the
    translation service is asked to translate from en. *)
Lemma translate_gets_language_prefix :
  source_language session = "en-US"%string /\
  translate_calls (fst (translate_text steady "Let us pray." session))
    = [("Let us pray.", "es", "en")]%string /\
  "en"%string <> source_language session.
Proof. repeat split. discriminate. Qed.

(** C6, amended: with translation enabled, a final result makes the
    committer call the service once, with the transcript, the configured
    target language, and the configured source language cut at its first
    hyphen: a hyphen-free prefix of the configured code which is either all
    of it or is followed in it by a hyphen. *)
Theorem translate_receives_text_target_and_source_prefix (E : Env)
    (r : Result) (w : World) (t : string) (rest : list string) :
  is_final r = true -> alternatives r = t :: rest ->
  translate_calls (fst (translate_text E t w))
    = translate_calls w
        ++ [(t, target_language w, split_first hyphen (source_language w))] /\
  translate_calls (fst (process_result E true r w))
    = translate_calls w
        ++ [(t, target_language w, split_first hyphen (source_language w))] /\
  (exists tail,
     source_language w = split_first hyphen (source_language w) ^^ tail /\
     (tail = EmptyString \/ exists tl, tail = String hyphen tl)) /\
  (forall pre post,
     split_first hyphen (source_language w) <> pre ^^ String hyphen post).
Proof.
  intros F A. split; [|split; [|split]].
  - destruct w as [src tgt ofile ofn n con c calls]. run_code.
    destruct (translate_client E (List.length calls) t tgt
                (split_first hyphen src)) as [tr|[msg|]]; reflexivity.
  - exact (process_final_request E r w t rest F A).
  - apply split_first_prefix.
  - apply split_first_no_sep.
Qed.

Lemma translate_receives_text_target_and_source_prefix_witness :
  translate_calls
    (fst (process_result steady true (final "Let us pray.") session))
  = [("Let us pray.", "es", "en")]%string.
Proof.
  destruct (translate_receives_text_target_and_source_prefix steady
              (final "Let us pray.") session "Let us pray." []
              eq_refl eq_refl) as (_ & P & _).
  exact P.
Defined.

(** C2: on a stream that delivers its results without raising, the
    counter ends at the number of final events; with translation and the log
    enabled the log is the header, one entry per final event, the trailer;
    and the entry of the [i]-th final event (counted from 0) is the segment
    numbered [i + 1], carrying that event's transcript: the numbers run
    1, 2, 3, ... in the order the events were received. *)
Theorem segment_numbers_follow_final_events (E : Env)
    (items : list stream_item) (te save : bool) (w0 : World) :
  clean items = true ->
  (te = true -> uninterrupted E) ->
  (save = false -> output_file w0 = None) ->
  exists w',
    process_stream E items te save w0 = (w', Ok tt) /\
    segment_count w'
      = List.length (final_transcripts (results_of items)) /\
    (save = true -> te = true ->
     exists f entries,
       output_file w' = Some f /\ closed f = true /\
       persisted f
       = header (source_language w0) (target_language w0)
                (str_datetime E (S (clock w0)))
         ^^ concat_str entries
         ^^ trailer
              (str_datetime E
                 (clock w0 + 2
                  + List.length (final_transcripts (results_of items))))
              (List.length (final_transcripts (results_of items))) /\
       List.length entries
         = List.length (final_transcripts (results_of items)) /\
       forall i t,
         nth_error (final_transcripts (results_of items)) i = Some t ->
         nth_error entries i
         = Some (segment_entry (source_language w0) (target_language w0)
                   (strftime_HMS E (clock w0 + 2 + i)) (i + 1) t
                   (translation_of
                      (translate_client E
                         (List.length (translate_calls w0) + i) t
                         (target_language w0)
                         (split_first hyphen (source_language w0)))))).
Proof.
  intros CL NI NF. destruct save.
  - destruct (process_stream_clean E te items w0 CL NI)
      as (w' & f & R & C & O & CF & _ & P).
    exists w'. split; [exact R|]. split; [exact C|].
    intros _ ->. exists f. eexists. split; [exact O|]. split; [exact CF|].
    split; [exact P|]. split; [apply length_entries_from|].
    intros i t H. now rewrite (nth_error_entries_from E _ _ _ _ _ _ _ _ _ H).
  - destruct (process_stream_clean_no_log E te items w0 CL NI (NF eq_refl))
      as (w' & R & C & _).
    exists w'. split; [exact R|]. split; [exact C|]. discriminate.
Qed.

Lemma segment_numbers_follow_final_events_witness :
  exists w',
    process_stream steady two_utterances true true session = (w', Ok tt) /\
    segment_count w' = 2.
Proof.
  destruct (segment_numbers_follow_final_events steady two_utterances
              true true session eq_refl (fun _ => steady_uninterrupted))
    as (w' & R & C & _).
  { discriminate. }
  exists w'. split; [exact R | exact C].
Defined.

(** C10: with translation disabled and the log enabled, a stream that
    delivers its results without raising leaves a log made of the header,
    then for each final event, in order, one entry that is the time stamp in
    brackets, a space, the transcript and a blank line, and nothing else,
    then the trailer. No translation request is made. *)
Theorem transcript_only_log (E : Env) (items : list stream_item)
    (w0 : World) :
  clean items = true ->
  exists w' f,
    process_stream E items false true w0 = (w', Ok tt) /\
    output_file w' = Some f /\ closed f = true /\
    persisted f
    = header (source_language w0) (target_language w0)
             (str_datetime E (S (clock w0)))
      ^^ concat_str
           (map (fun ix =>
                   "[" ^^ strftime_HMS E (clock w0 + 2 + fst ix) ^^ "] "
                       ^^ snd ix ^^ nl ^^ nl)
                (combine
                   (seq 0 (List.length
                             (final_transcripts (results_of items))))
                   (final_transcripts (results_of items))))
      ^^ trailer
           (str_datetime E
              (clock w0 + 2
               + List.length (final_transcripts (results_of items))))
           (List.length (final_transcripts (results_of items))) /\
    forall r w, translate_calls (fst (process_result E false r w))
                = translate_calls w.
Proof.
  intros CL.
  destruct (process_stream_clean E false items w0 CL)
    as (w' & f & R & C & O & CF & _ & P); [discriminate|].
  exists w', f. split; [exact R|]. split; [exact O|]. split; [exact CF|].
  split.
  - rewrite P. unfold entries_from. f_equal. f_equal. f_equal.
    apply map_ext. now intros [i t].
  - intros r w. apply process_plain_no_request.
Qed.

Lemma transcript_only_log_witness :
  exists w' f,
    process_stream steady two_utterances false true session = (w', Ok tt) /\
    output_file w' = Some f /\ closed f = true.
Proof.
  destruct (transcript_only_log steady two_utterances session eq_refl)
    as (w' & f & R & O & CF & _).
  exists w', f. repeat split; assumption.
Defined.

(** C3, at the failing input: the first event of the stream is final and
    the operator interrupts while its translation is under way. The counter
    was raised when the event arrived, the interrupt passes both
    [except Exception] clauses, and the [finally] block closes the log with
    a trailer that reports one segment although none was appended: the
    persisted log is the header followed at once by the trailer. *)
Lemma interrupted_translation_is_counted :
  exists w' f,
    process_stream interrupted one_utterance true true session
      = (w', Raise KeyboardInterrupt) /\
    output_file w' = Some f /\ closed f = true /\
    persisted f
    = header "en-US" "es" "D1" ^^ concat_str [] ^^ trailer "D3" 1 /\
    segment_count w' = 1 /\
    List.length (@nil string) <> 1.
Proof.
  eexists; eexists. split; [vm_compute; reflexivity|].
  split; [reflexivity|]. split; [reflexivity|].
  split; [vm_compute; reflexivity|].
  split; [reflexivity | discriminate].
Qed.

End TranslatorFacts.

(* ================================================================== *)
(** ** Part IX: more on the frame queue and the generator              *)
(* ================================================================== *)

Module StreamerMore.

Import Streamer Schedules StreamerFacts.

Lemma run_app a : forall b s,
  run (a ++ b) s
  = match run a s with
    | None => None
    | Some (s1, tr1) =>
        match run b s1 with
        | None => None
        | Some (s2, tr2) => Some (s2, tr1 ++ tr2)
        end
    end.
Proof.
  induction a as [|x a IH]; intros b s; cbn [app run].
  - destruct (run b s) as [[s2 tr2]|]; reflexivity.
  - destruct (step x s) as [[s1 ev1]|]; [|reflexivity].
    rewrite IH. destruct (run a s1) as [[s2 tr2]|]; [|reflexivity].
    destruct (run b s2) as [[s3 tr3]|]; [|reflexivity].
    now rewrite app_assoc.
Qed.

Lemma run_callbacks fs : forall st p,
  is_recording st = true ->
  run (map Callback fs) (mkSystem st p)
  = Some (mkSystem (with_queue st (audio_queue st ++ fs)) p, map Put fs).
Proof.
  induction fs as [|f fs IH]; intros [r q sm tm] p F; cbn in F; subst r.
  - cbn. unfold with_queue. cbn. now rewrite app_nil_r.
  - cbn [map run step streamer pc is_recording _audio_callback audio_queue
         Streamer.stream audio_terminated].
    rewrite IH by reflexivity. unfold with_queue. cbn.
    now rewrite <- app_assoc.
Qed.

Lemma run_pulls n : forall st,
  is_recording st = true ->
  n <= List.length (audio_queue st) ->
  run (pulls n) (mkSystem st AtLoopTest)
  = Some (mkSystem (with_queue st (skipn n (audio_queue st))) AtLoopTest,
          map Yield (firstn n (audio_queue st))).
Proof.
  induction n as [|n IH]; intros [r q sm tm] F L; cbn in F, L; subst r.
  - reflexivity.
  - destruct q as [|c q]; [cbn in L; lia|]. cbn in L.
    cbn [pulls run step audio_generator streamer pc is_recording audio_queue].
    unfold with_queue at 1.
    cbn [is_recording Streamer.stream audio_terminated].
    rewrite IH by (cbn; lia || reflexivity). reflexivity.
Qed.

(** X1: while capture is active the callback never drops a frame and never
    waits: any burst of frames delivered with no consumer running ends up
    queued whole, behind what was queued, in delivery order. *)
Theorem callbacks_queue_every_frame (fs : list frame) (s : System) :
  is_recording (streamer s) = true ->
  exists s',
    run (map Callback fs) s = Some (s', map Put fs) /\
    audio_queue (streamer s') = audio_queue (streamer s) ++ fs /\
    List.length (audio_queue (streamer s'))
      = List.length (audio_queue (streamer s)) + List.length fs /\
    pc s' = pc s.
Proof.
  destruct s as [st p]. cbn [streamer pc]. intros F.
  eexists. split; [exact (run_callbacks fs st p F)|].
  cbn. split; [reflexivity|]. split; [apply length_app | reflexivity].
Qed.

Lemma callbacks_queue_every_frame_witness :
  exists s',
    run (map Callback [f1; f2; f1]) (mkSystem (start_stream init) AtLoopTest)
      = Some (s', map Put [f1; f2; f1]) /\
    audio_queue (streamer s') = [f1; f2; f1].
Proof.
  destruct (callbacks_queue_every_frame [f1; f2; f1]
              (mkSystem (start_stream init) AtLoopTest) eq_refl)
    as (s' & R & Q & _).
  exists s'. split; [exact R | exact Q].
Defined.

(** X2: round trip through the queue: frames delivered while capture is active
    and then pulled one by one come out as delivered, after the frames that
    were queued before, each exactly once, and the queue is empty again. *)
Theorem queue_round_trip (fs : list frame) (st : AudioStreamer) :
  is_recording st = true ->
  run (map Callback fs
       ++ pulls (List.length (audio_queue st) + List.length fs))
      (mkSystem st AtLoopTest)
  = Some (mkSystem (with_queue st []) AtLoopTest,
          map Put fs ++ map Yield (audio_queue st ++ fs)).
Proof.
  intros F. rewrite run_app, (run_callbacks fs st AtLoopTest F).
  rewrite run_pulls.
  - cbn [audio_queue with_queue]. rewrite <- length_app.
    rewrite firstn_all, skipn_all. reflexivity.
  - exact F.
  - cbn [audio_queue with_queue]. now rewrite length_app.
Qed.

Lemma queue_round_trip_witness :
  run (map Callback [f1; f2] ++ pulls 2)
      (mkSystem (start_stream init) AtLoopTest)
  = Some (mkSystem (with_queue (start_stream init) []) AtLoopTest,
          map Put [f1; f2] ++ map Yield [f1; f2]).
Proof.
  exact (queue_round_trip [f1; f2] (start_stream init) eq_refl).
Defined.

(** X3: a generator first resumed while the flag is down (before [start_stream]
    or after [stop_stream]) returns at that loop test; whatever happens
    next, capture being started and frames being queued included, it yields
    nothing. *)
Theorem generator_resumed_flag_down_is_spent (acts : list action)
    (s s' : System) (tr : list event) :
  pc s = AtLoopTest ->
  is_recording (streamer s) = false ->
  run (LoopTest :: acts) s = Some (s', tr) ->
  pc s' = Returned /\ yields tr = [].
Proof.
  destruct s as [st p]. cbn [pc streamer]. intros -> F H.
  cbn [run step audio_generator pc streamer] in H. rewrite F in H.
  destruct (run acts (mkSystem st Returned)) as [[s2 tr2]|] eqn:R;
    [|discriminate].
  inversion H; subst.
  destruct (run_after_return _ _ _ _ R eq_refl) as [P Y].
  split; [exact P | exact Y].
Qed.

Lemma generator_resumed_flag_down_is_spent_witness :
  exists s' tr,
    run [LoopTest; StartStream; Callback f1; Callback f2] boot
      = Some (s', tr) /\
    pc s' = Returned /\ yields tr = [] /\
    audio_queue (streamer s') = [f1; f2].
Proof.
  eexists; eexists. split; [reflexivity|].
  destruct (generator_resumed_flag_down_is_spent
              [StartStream; Callback f1; Callback f2] boot _ _
              eq_refl eq_refl eq_refl) as (P & Y).
  split; [exact P|]. split; [exact Y | reflexivity].
Defined.

Lemma flag_down_yields acts : forall s s' tr,
  is_recording (streamer s) = false ->
  forallb (fun a => negb (is_start a)) acts = true ->
  run acts s = Some (s', tr) ->
  (pc s <> AtGet -> yields tr = []) /\ List.length (yields tr) <= 1.
Proof.
  induction acts as [|a acts IH]; intros s s' tr F NS H.
  - inversion H; subst. cbn. split; [reflexivity | lia].
  - cbn [forallb] in NS. apply andb_true_iff in NS as [Na NS].
    apply negb_true_iff in Na. cbn [run] in H.
    destruct (step a s) as [[s1 ev1]|] eqn:S1; [|discriminate].
    destruct (run acts s1) as [[s2 ev2]|] eqn:R2; [|discriminate].
    inversion H; subst; clear H.
    destruct (step_keeps_flag_down _ _ _ _ Na S1 F) as (F1 & _ & K).
    destruct (IH _ _ _ F1 NS R2) as (Y0 & Y1).
    rewrite yields_app, length_app.
    destruct s as [st p]. cbn [streamer pc] in *.
    destruct a; cbn [step audio_generator pc streamer] in S1;
      try discriminate.
    + inversion S1; subst. cbn [pc] in *.
      assert (E : yields (if is_recording st then [Put in_data] else [])
                  = []) by (destruct (is_recording st); reflexivity).
      rewrite E. cbn. auto.
    + inversion S1; subst. cbn [pc yields app List.length] in *. auto.
    + destruct p; try discriminate. rewrite F in S1.
      inversion S1; subst.
      destruct (run_after_return _ _ _ _ R2 eq_refl) as [_ Y].
      rewrite Y. cbn. split; [reflexivity | lia].
    + destruct p; try discriminate.
      destruct (audio_queue st); try discriminate.
      inversion S1; subst. cbn [pc] in Y0.
      rewrite Y0 by discriminate. cbn.
      split; [intros N; now elim N | lia].
    + destruct p; try discriminate.
      destruct (audio_queue st); try discriminate.
      inversion S1; subst. cbn [pc] in Y0.
      rewrite Y0 by discriminate. cbn. split; [reflexivity | lia].
Qed.

(** X4: once [stop_stream] has run, and as long as capture is not started
    again, nothing is put on the queue and the generator hands over at most
    one more frame (the one a pending [get] returns), none at all unless it
    was inside [get]; the queue is only ever shortened by that frame, so
    everything else that was queued when capture stopped is still queued,
    in order, at the end. *)
Theorem at_most_one_frame_after_stop (acts : list action)
    (self : AudioStreamer) (p : gen_pc) (s' : System) (tr : list event) :
  forallb (fun a => negb (is_start a)) acts = true ->
  run acts (mkSystem (stop_stream self) p) = Some (s', tr) ->
  List.length (yields tr) <= 1 /\
  (p <> AtGet -> yields tr = []) /\
  puts tr = [] /\
  audio_queue self = yields tr ++ audio_queue (streamer s') /\
  (p <> AtGet -> audio_queue (streamer s') = audio_queue self).
Proof.
  intros NS H.
  destruct (flag_down_yields acts (mkSystem (stop_stream self) p) s' tr
              eq_refl NS H) as (Y0 & Y1).
  destruct (flag_down_no_put acts (mkSystem (stop_stream self) p) s' tr
              eq_refl NS H) as (P & _).
  pose proof (run_conservation acts _ _ _ H) as C.
  rewrite P, app_nil_r in C. cbn [streamer stop_stream audio_queue] in C.
  split; [exact Y1|]. split; [exact Y0|]. split; [exact P|].
  split; [exact C|].
  intros N. rewrite (Y0 N) in C. now rewrite C.
Qed.

Lemma at_most_one_frame_after_stop_witness :
  exists s' tr,
    run [GetChunk; Callback f1; LoopTest]
        (mkSystem (stop_stream (with_queue (start_stream init) [f1; f2]))
                  AtGet)
      = Some (s', tr) /\
    List.length (yields tr) <= 1 /\
    [f1; f2] = yields tr ++ audio_queue (streamer s').
Proof.
  eexists; eexists. split; [reflexivity|].
  destruct (at_most_one_frame_after_stop [GetChunk; Callback f1; LoopTest]
              (with_queue (start_stream init) [f1; f2]) AtGet _ _
              eq_refl eq_refl) as (Y & _ & _ & Q & _).
  split; [exact Y | exact Q].
Defined.

End StreamerMore.

(* ================================================================== *)
(** ** Part X: device selection                                        *)
(* ================================================================== *)

Module DevicesFacts.

Import Streamer Translator Devices.

Lemma find_from_spec devices : forall i,
  match snd (find_from i devices) with
  | Some k =>
      i <= k /\
      exists info,
        nth_error devices (k - i) = Some info /\ is_usb info = true /\
        forall j info',
          j < k - i -> nth_error devices j = Some info' ->
          is_usb info' = false
  | None => forall info, In info devices -> is_usb info = false
  end.
Proof.
  induction devices as [|d ds IH]; intros i; cbn [find_from].
  - cbn. intros info [].
  - destruct (is_usb d) eqn:U.
    + cbn [snd]. split; [lia|]. exists d. rewrite Nat.sub_diag.
      split; [reflexivity|]. split; [assumption|]. intros j info' L. lia.
    + specialize (IH (S i)).
      destruct (find_from (S i) ds) as [out found]. cbn [snd] in *.
      destruct found as [k|].
      * destruct IH as (L & info & N & V & Before). split; [lia|].
        exists info. replace (k - i) with (S (k - S i)) by lia.
        split; [exact N|]. split; [exact V|].
        intros [|j] info' Lj Hj; cbn in Hj.
        -- now inversion Hj; subst.
        -- apply (Before j info'); [lia | exact Hj].
      * intros info [<-|In']; [assumption | now apply IH].
Qed.

(** X5: the device index [AudioStreamer(device_index)] settles on. Given no
    index, or index 0, it is the index of the first device, input or not,
    whose name contains USB or Focusrite, and [None] when no name does; a
    non-zero index is kept as it is, whatever the devices are. *)
Theorem init_device_index (devices : list DeviceInfo)
    (device_index : option nat) :
  match device_index with
  | Some (S n) =>
      __init__ devices device_index = ([], (Some (S n), init))
  | _ =>
      __init__ devices device_index = __init__ devices None /\
      snd (snd (__init__ devices device_index)) = init /\
      match fst (snd (__init__ devices device_index)) with
      | Some k =>
          exists info,
            nth_error devices k = Some info /\ is_usb info = true /\
            forall j info',
              j < k -> nth_error devices j = Some info' ->
              is_usb info' = false
      | None => forall info, In info devices -> is_usb info = false
      end
  end.
Proof.
  assert (G : __init__ devices None = __init__ devices None /\
              snd (snd (__init__ devices None)) = init /\
              match fst (snd (__init__ devices None)) with
              | Some k =>
                  exists info,
                    nth_error devices k = Some info /\ is_usb info = true /\
                    forall j info',
                      j < k -> nth_error devices j = Some info' ->
                      is_usb info' = false
              | None => forall info, In info devices -> is_usb info = false
              end).
  { split; [reflexivity|].
    pose proof (find_from_spec devices 0) as S.
    unfold __init__, _find_usb_device.
    destruct (find_from 0 devices) as [out found]. cbn [fst snd] in *.
    split; [reflexivity|].
    destruct found as [k|]; [|exact S].
    destruct S as (_ & info & N & V & B). rewrite Nat.sub_0_r in *.
    exists info. auto. }
  destruct device_index as [[|n]|]; [exact G | reflexivity | exact G].
Qed.

Lemma list_from_spec devices : forall i usb_found,
  list_from i devices usb_found
  = (List.concat (map block (inputs_from i devices)),
     usb_found || existsb input_usb devices).
Proof.
  induction devices as [|d ds IH]; intros i b;
    cbn [list_from inputs_from existsb map List.concat].
  - now rewrite orb_false_r.
  - unfold input_usb at 1. destruct (0 <? maxInputChannels d) eqn:I.
    + rewrite IH. cbn [map List.concat block andb]. f_equal.
      * now rewrite <- !app_assoc.
      * destruct (is_usb d), b; reflexivity.
    + rewrite IH. reflexivity.
Qed.

(** X6: [list_audio_devices] prints its banner, then one block for each input
    device (at least one input channel) under its host index and in host
    order, devices without input being passed over, then its verdict:
    ready exactly when some input device has USB or Focusrite in its
    name. *)
Theorem list_audio_devices_lists_inputs (devices : list DeviceInfo) :
  list_audio_devices devices
  = [ (nl ^^ str_mul "=" 60) ^^ nl;
      "📢 AVAILABLE AUDIO DEVICES" ^^ nl;
      (str_mul "=" 60 ^^ nl) ^^ nl ]
    ++ List.concat (map block (inputs_from 0 devices))
    ++ (if existsb input_usb devices then ready else not_detected)
  /\ (forall i info,
        In (i, info) (inputs_from 0 devices) <->
        nth_error devices i = Some info /\ 0 < maxInputChannels info).
Proof.
  split.
  - unfold list_audio_devices. rewrite list_from_spec. cbn [orb].
    destruct (existsb input_usb devices); reflexivity.
  - assert (G : forall ds k i info,
               In (i, info) (inputs_from k ds) <->
               k <= i /\ nth_error ds (i - k) = Some info /\
               0 < maxInputChannels info).
    { induction ds as [|d ds IH]; intros k i info; cbn [inputs_from].
      - split; [intros [] | intros (_ & H & _)].
        destruct (i - k); discriminate.
      - assert (T : In (i, info) (inputs_from (S k) ds) <->
                    k < i /\ nth_error (d :: ds) (i - k) = Some info /\
                    0 < maxInputChannels info).
        { rewrite IH. split.
          - intros (L & N & P). split; [lia|]. split; [|exact P].
            replace (i - k) with (S (i - S k)) by lia. exact N.
          - intros (L & N & P). split; [lia|]. split; [|exact P].
            replace (i - k) with (S (i - S k)) in N by lia. exact N. }
        destruct (0 <? maxInputChannels d) eqn:I.
        + cbn [In]. rewrite T. apply Nat.ltb_lt in I. split.
          * intros [Q|(L & N & P)].
            -- inversion Q; subst. rewrite Nat.sub_diag. auto.
            -- split; [lia | auto].
          * intros (L & N & P).
            destruct (Nat.eq_dec k i) as [->|Ne].
            -- left. rewrite Nat.sub_diag in N. cbn in N. now inversion N.
            -- right. split; [lia | auto].
        + rewrite T. apply Nat.ltb_ge in I. split.
          * intros (L & N & P). split; [lia | auto].
          * intros (L & N & P).
            destruct (Nat.eq_dec k i) as [->|Ne]; [|split; [lia | auto]].
            rewrite Nat.sub_diag in N. cbn in N. inversion N; subst. lia. }
    intros i info. rewrite G, Nat.sub_0_r. split.
    + intros (_ & H). exact H.
    + intros H. split; [lia | exact H].
Qed.

(** X7: when [list_audio_devices] finds a USB input device at index [i],
    [_find_usb_device] does not come back empty-handed: it returns the index
    of the first device whose name contains USB or Focusrite, so one no
    later than [i] with no such name before it, and it takes that device
    whether or not it has input channels. *)
Theorem listed_usb_device_is_found (devices : list DeviceInfo) (i : nat)
    (info : DeviceInfo) :
  nth_error devices i = Some info ->
  input_usb info = true ->
  exists k first,
    snd (_find_usb_device devices) = Some k /\ k <= i /\
    nth_error devices k = Some first /\ is_usb first = true /\
    (forall j earlier,
       j < k -> nth_error devices j = Some earlier ->
       is_usb earlier = false) /\
    (maxInputChannels first = 0 -> k < i).
Proof.
  intros N U. unfold input_usb in U. apply andb_true_iff in U as [I U].
  pose proof (find_from_spec devices 0) as S. unfold _find_usb_device.
  destruct (find_from 0 devices) as [out found]. cbn [snd] in *.
  destruct found as [k|].
  - destruct S as (_ & first & Nk & V & Before). rewrite Nat.sub_0_r in *.
    assert (L : k <= i).
    { destruct (Nat.le_gt_cases k i) as [L|G]; [exact L|].
      rewrite (Before i info G N) in U. discriminate. }
    exists k, first. split; [reflexivity|]. split; [exact L|].
    split; [exact Nk|]. split; [exact V|]. split.
    + intros j earlier Lj Nj. exact (Before j earlier Lj Nj).
    + intros Z. destruct (Nat.eq_dec k i) as [->|Ne]; [|lia].
      rewrite Nk in N. inversion N; subst.
      apply Nat.ltb_lt in I. lia.
  - rewrite (S info (nth_error_In _ _ N)) in U. discriminate.
Qed.

Lemma listed_usb_device_is_found_witness :
  exists k first,
    snd (_find_usb_device usb_speaker_first) = Some k /\ k <= 2 /\
    nth_error usb_speaker_first k = Some first /\ is_usb first = true /\
    (maxInputChannels first = 0 -> k < 2).
Proof.
  destruct (listed_usb_device_is_found usb_speaker_first 2
              (mkDevice "Focusrite USB Audio" 2 48000%N) eq_refl eq_refl)
    as (k & first & F & L & N & U & _ & Z).
  exists k, first. repeat split; assumption.
Defined.

End DevicesFacts.

(* ================================================================== *)
(** ** Part XI: more on sessions                                       *)
(* ================================================================== *)

Module TranslatorMore.

Import Translator Layout Session Examples Schedules TranslatorFacts.

Section Sessions.

Variable E : Env.

(** *** Loops over concatenated inputs *)

Lemma for_each_app {A} (body : A -> M unit) a : forall b w,
  for_each body (a ++ b) w
  = match for_each body a w with
    | (w1, Ok _) => for_each body b w1
    | (w1, Raise e) => (w1, Raise e)
    end.
Proof.
  induction a as [|x a IH]; intros b w; cbn [app for_each].
  - reflexivity.
  - unfold bind. destruct (body x w) as [w1 [[]|e]]; [apply IH | reflexivity].
Qed.

Lemma for_responses_app body a : forall b w,
  for_responses body (a ++ b) w
  = match for_responses body a w with
    | (w1, Ok _) => for_responses body b w1
    | (w1, Raise e) => (w1, Raise e)
    end.
Proof.
  induction a as [|[rs|e] a IH]; intros b w; cbn [app for_responses].
  - reflexivity.
  - unfold bind. destruct (for_each body rs w) as [w1 [[]|e]];
      [apply IH | reflexivity].
  - reflexivity.
Qed.

(** *** From the loop to the end of the session *)

Lemma close_log_calls w :
  translate_calls (fst (close_log E w)) = translate_calls w.
Proof.
  destruct w as [src tgt [[nm buf per [|]]|] [fn|] n con c calls];
    reflexivity.
Qed.

Lemma finish_session te items w0 w1 w3 o3 f3 fn :
  open_log E w0 = (w1, Ok tt) ->
  for_responses (process_result E te) items (loop_start te w1) = (w3, o3) ->
  output_file w3 = Some f3 -> closed f3 = false ->
  output_filename w3 = Some fn ->
  exists w',
    process_stream E items te true w0 = (w', guarded o3) /\
    segment_count w' = segment_count w3 /\
    output_file w'
    = Some (mkFile (name f3) EmptyString
              (contents f3 ^^
               trailer (str_datetime E (clock w3)) (segment_count w3))
              true).
Proof.
  intros R1 R3 O3 CF3 FN3.
  rewrite (process_stream_loop E te true items w0 w1 R1).
  unfold try_finally, try_except. rewrite R3.
  destruct o3 as [[]|[msg|]]; cbn [guarded].
  - destruct (close_log_spec E w3 f3 fn O3 CF3 FN3) as (w4 & R4 & _ & N4 & O4).
    exists w4. rewrite R4. auto.
  - set (w3' := add_console w3 ((nl ^^ "❌ Error: " ^^ msg) ^^ nl)).
    change (print (nl ^^ "❌ Error: " ^^ msg) w3) with (w3', @Ok unit tt).
    destruct (close_log_spec E w3' f3 fn O3 CF3 FN3)
      as (w4 & R4 & _ & N4 & O4).
    exists w4. rewrite R4. auto.
  - destruct (close_log_spec E w3 f3 fn O3 CF3 FN3) as (w4 & R4 & _ & N4 & O4).
    exists w4. rewrite R4. auto.
Qed.

(** The loop of a session that opened its log runs on an open log and
    leaves it open. *)
Lemma session_loop te items w0 :
  exists w1 w3 o3 f3,
    open_log E w0 = (w1, Ok tt) /\
    file_ok (loop_start te w1) /\
    for_responses (process_result E te) items (loop_start te w1) = (w3, o3) /\
    output_file w3 = Some f3 /\ closed f3 = false /\
    output_filename w3 = Some (log_name E (clock w0)).
Proof.
  destruct (open_log_spec E w0)
    as (w1 & R1 & S1 & T1 & N1 & C1 & L1 & F1 & O1).
  destruct (loop_start_spec te w1) as ((S2 & T2 & F2) & N2 & C2 & L2 & O2).
  assert (OK2 : file_ok (loop_start te w1)).
  { unfold file_ok. now rewrite O2, O1. }
  destruct (for_responses (process_result E te) items (loop_start te w1))
    as [w3 o3] eqn:R3.
  destruct (for_responses_taken E te items _ _ _ OK2 R3)
    as (ts & _ & (_ & _ & F3) & G3 & _).
  unfold log_grows in G3. rewrite O2, O1 in G3.
  destruct (output_file w3) as [f3|] eqn:O3; [|contradiction].
  exists w1, w3, o3, f3. repeat split; try assumption; try apply G3.
  congruence.
Qed.

(** *** A session cut short *)

Lemma session_cut te pre items e w0 :
  clean pre = true ->
  (te = true -> uninterrupted E) ->
  (forall w w2,
     for_responses (process_result E te) pre w = (w2, Ok tt) ->
     for_responses (process_result E te) items w = (w2, Raise e)) ->
  exists w' f,
    process_stream E items te true w0 = (w', guarded (Raise e)) /\
    segment_count w' = List.length (final_transcripts (results_of pre)) /\
    output_file w' = Some f /\
    closed f = true /\ buffer f = EmptyString /\
    persisted f
    = header (source_language w0) (target_language w0)
             (str_datetime E (S (clock w0)))
      ^^ concat_str
           (entries_from E te (source_language w0) (target_language w0)
              (clock w0 + 2) (List.length (translate_calls w0)) 0
              (final_transcripts (results_of pre)))
      ^^ trailer
           (str_datetime E
              (clock w0 + 2
               + List.length (final_transcripts (results_of pre))))
           (List.length (final_transcripts (results_of pre))).
Proof.
  intros CL NI Cut.
  destruct (open_log_spec E w0)
    as (w1 & R1 & S1 & T1 & N1 & C1 & L1 & F1 & O1).
  destruct (loop_start_spec te w1) as ((S2 & T2 & F2) & N2 & C2 & L2 & O2).
  assert (OK2 : file_ok (loop_start te w1)).
  { unfold file_ok. now rewrite O2, O1. }
  destruct (for_responses_clean E te pre (loop_start te w1) CL OK2 NI)
    as (w3 & R3 & ((S3 & T3 & F3) & N3 & C3 & L3) & G3).
  apply Cut in R3.
  unfold log_grows in G3. rewrite O2, O1 in G3.
  destruct (output_file w3) as [f3|] eqn:O3; [|contradiction].
  destruct G3 as (CF3 & NM3 & K3).
  assert (FN3 : output_filename w3 = Some (log_name E (clock w0)))
    by congruence.
  destruct (finish_session te items w0 w1 w3 _ f3 _ R1 R3 O3 CF3 FN3)
    as (w' & R & N' & O').
  exists w'. eexists. split; [exact R|].
  split; [rewrite N', N3, N2; reflexivity|].
  split; [exact O'|]. cbn [closed buffer persisted].
  repeat split.
  rewrite K3. unfold contents at 1. cbn [persisted buffer].
  rewrite append_nil_r, append_assoc.
  rewrite S2, T2, S1, T1, C2, C1, N2, L2, L1, N3, N2, C3, C2, C1.
  reflexivity.
Qed.

(** X9: when the recognizer's stream raises after delivering some responses,
    the session ends there: every final event delivered before is in the
    log, numbered and in order, the trailer counts exactly those, nothing
    that would have followed is looked at, and [process_stream] returns
    normally for an [Exception] and re-raises an operator interrupt. *)
Theorem stream_error_keeps_committed_segments
    (pre post : list stream_item) (e : exn) (te : bool) (w0 : World) :
  clean pre = true ->
  (te = true -> uninterrupted E) ->
  exists w' f,
    process_stream E (pre ++ StreamRaise e :: post) te true w0
      = (w', match e with
             | Exception _ => Ok tt
             | KeyboardInterrupt => Raise KeyboardInterrupt
             end) /\
    segment_count w' = List.length (final_transcripts (results_of pre)) /\
    output_file w' = Some f /\
    closed f = true /\ buffer f = EmptyString /\
    persisted f
    = header (source_language w0) (target_language w0)
             (str_datetime E (S (clock w0)))
      ^^ concat_str
           (entries_from E te (source_language w0) (target_language w0)
              (clock w0 + 2) (List.length (translate_calls w0)) 0
              (final_transcripts (results_of pre)))
      ^^ trailer
           (str_datetime E
              (clock w0 + 2
               + List.length (final_transcripts (results_of pre))))
           (List.length (final_transcripts (results_of pre))).
Proof.
  intros CL NI.
  destruct (session_cut te pre (pre ++ StreamRaise e :: post) e w0 CL NI)
    as (w' & f & R & H).
  { intros w w2 Rp. rewrite for_responses_app, Rp. reflexivity. }
  exists w', f. split; [|exact H].
  rewrite R. destruct e; reflexivity.
Qed.

(** X10: a result that carries no alternative ends the session like a stream
    error: indexing it raises, [process_stream] catches that and returns
    normally; the final events before it are in the log and counted by the
    trailer, the results after it, in the same response or in later ones,
    are never looked at. *)
Theorem result_without_alternative_ends_session
    (pre post : list stream_item) (rs1 rs2 : list Result) (bad : Result)
    (te : bool) (w0 : World) :
  clean pre = true ->
  forallb has_alternative rs1 = true ->
  alternatives bad = [] ->
  (te = true -> uninterrupted E) ->
  exists w' f,
    process_stream E (pre ++ Response (rs1 ++ bad :: rs2) :: post) te true w0
      = (w', Ok tt) /\
    segment_count w'
      = List.length (final_transcripts (results_of pre ++ rs1)) /\
    output_file w' = Some f /\
    closed f = true /\ buffer f = EmptyString /\
    persisted f
    = header (source_language w0) (target_language w0)
             (str_datetime E (S (clock w0)))
      ^^ concat_str
           (entries_from E te (source_language w0) (target_language w0)
              (clock w0 + 2) (List.length (translate_calls w0)) 0
              (final_transcripts (results_of pre ++ rs1)))
      ^^ trailer
           (str_datetime E
              (clock w0 + 2
               + List.length (final_transcripts (results_of pre ++ rs1))))
           (List.length (final_transcripts (results_of pre ++ rs1))).
Proof.
  intros CL HA B NI.
  assert (CL' : clean (pre ++ [Response rs1]) = true).
  { unfold clean in *. rewrite forallb_app, CL. cbn. now rewrite HA. }
  assert (RO : results_of (pre ++ [Response rs1]) = results_of pre ++ rs1).
  { unfold results_of. rewrite flat_map_app. cbn. now rewrite app_nil_r. }
  destruct (session_cut te (pre ++ [Response rs1])
              (pre ++ Response (rs1 ++ bad :: rs2) :: post)
              (Exception "list index out of range") w0 CL' NI)
    as (w' & f & R & H).
  { intros w w2. rewrite !for_responses_app.
    destruct (for_responses (process_result E te) pre w) as [w1 [[]|e]];
      [|discriminate].
    cbn [for_responses]. unfold bind. rewrite for_each_app.
    destruct (for_each (process_result E te) rs1 w1) as [w3 [[]|e]];
      [|discriminate].
    cbn [ret]. intros Q. inversion Q; subst.
    cbn [for_each]. unfold bind.
    now rewrite (process_no_alternative E te bad w2 B). }
  rewrite RO in H. exists w', f. split; [exact R | exact H].
Qed.

(** *** A handle left closed by an earlier session *)

Lemma process_result_closed te r w f :
  output_file w = Some f -> closed f = true ->
  output_file (fst (process_result E te r w)) = Some f.
Proof.
  destruct r as [[|t rest] [|]];
    destruct w as [src tgt ofile ofn n con c calls];
    destruct f as [nm buf per cl]; cbn [output_file closed];
    intros -> ->; destruct te; run_code; try reflexivity.
  destruct (translate_client E (List.length calls) t tgt
              (split_first hyphen src)) as [tr|[msg|]]; reflexivity.
Qed.

Lemma for_each_closed te rs f : forall w,
  output_file w = Some f -> closed f = true ->
  output_file (fst (for_each (process_result E te) rs w)) = Some f.
Proof.
  induction rs as [|r rs IH]; intros w O C; [exact O|].
  cbn [for_each]. unfold bind.
  pose proof (process_result_closed te r w f O C) as O1.
  destruct (process_result E te r w) as [w1 [[]|e]]; cbn [fst] in *.
  - now apply IH.
  - exact O1.
Qed.

Lemma for_responses_closed te items f : forall w,
  output_file w = Some f -> closed f = true ->
  output_file (fst (for_responses (process_result E te) items w)) = Some f.
Proof.
  induction items as [|[rs|e] items IH]; intros w O C; [exact O| |exact O].
  cbn [for_responses]. unfold bind.
  pose proof (for_each_closed te rs f w O C) as O1.
  destruct (for_each (process_result E te) rs w) as [w1 [[]|e]];
    cbn [fst] in *.
  - now apply IH.
  - exact O1.
Qed.

Lemma close_log_closed w f :
  output_file w = Some f -> closed f = true ->
  close_log E w = (w, Raise closed_file_error).
Proof.
  destruct w as [src tgt ofile ofn n con c calls];
    destruct f as [nm buf per cl]; cbn [output_file closed].
  intros -> ->. reflexivity.
Qed.

Lemma process_stream_on_closed_handle te items w0 f :
  output_file w0 = Some f -> closed f = true ->
  exists w',
    process_stream E items te false w0 = (w', Raise closed_file_error) /\
    output_file w' = Some f.
Proof.
  intros O C.
  rewrite (process_stream_loop E te false items w0 w0 eq_refl).
  destruct (loop_start_spec te w0) as (_ & _ & _ & _ & O2).
  rewrite <- O2 in O.
  pose proof (for_responses_closed te items f _ O C) as O3.
  unfold try_finally, try_except.
  destruct (for_responses (process_result E te) items (loop_start te w0))
    as [w3 [[]|[msg|]]]; cbn [fst] in O3; cbv beta iota.
  - rewrite (close_log_closed w3 f O3 C). eauto.
  - set (w3' := add_console w3 ((nl ^^ "❌ Error: " ^^ msg) ^^ nl)).
    change (print (nl ^^ "❌ Error: " ^^ msg) w3) with (w3', @Ok unit tt).
    cbv beta iota. rewrite (close_log_closed w3' f O3 C). eauto.
  - rewrite (close_log_closed w3 f O3 C). eauto.
Qed.

(** X11: the log handle of a finished session stays on the translator, closed.
    A second [process_stream] on the same object with [save_to_file=False]
    therefore always fails: whatever the two streams deliver and whatever
    the settings of translation, it ends by raising the error of a write to
    a closed file, and the first session's log is left as it was. *)
Theorem session_without_log_after_saved_session_fails
    (items1 items2 : list stream_item) (te1 te2 : bool) (w0 : World) :
  exists w',
    process_stream E items2 te2 false
      (fst (process_stream E items1 te1 true w0))
    = (w', Raise (Exception "I/O operation on closed file.")) /\
    output_file w' = output_file (fst (process_stream E items1 te1 true w0)).
Proof.
  destruct (process_stream_any E te1 items1 w0)
    as (w1 & o & f & ts & date & R & _ & O & CF & _).
  rewrite R. cbn [fst].
  destruct (process_stream_on_closed_handle te2 items2 w1 f O CF)
    as (w' & R' & O').
  exists w'. split; [exact R' | congruence].
Qed.

(** *** The requests a session makes *)

Lemma requests_app te src tgt a b :
  requests te src tgt (a ++ b) = requests te src tgt a ++ requests te src tgt b.
Proof. unfold requests. destruct te; [apply map_app | reflexivity]. Qed.

Lemma process_result_languages te r w :
  source_language (fst (process_result E te r w)) = source_language w /\
  target_language (fst (process_result E te r w)) = target_language w.
Proof.
  destruct r as [[|t rest] [|]];
    destruct w as [src tgt [[nm buf per [|]]|] ofn n con c calls];
    destruct te; run_code; try (split; reflexivity);
    destruct (translate_client E (List.length calls) t tgt
                (split_first hyphen src)) as [tr|[msg|]]; split; reflexivity.
Qed.

Lemma process_result_calls te r w :
  translate_calls (fst (process_result E te r w))
  = translate_calls w
    ++ requests te (source_language w) (target_language w)
         (final_transcripts [r]).
Proof.
  unfold final_transcripts. cbn [flat_map]. rewrite app_nil_r.
  destruct (alternatives r) as [|t rest] eqn:A.
  { rewrite (process_no_alternative E te r w A). cbn [fst].
    destruct (is_final r), te; cbn; now rewrite app_nil_r. }
  destruct (is_final r) eqn:F.
  2:{ rewrite (process_interim E te r w t rest F A). cbn [fst].
      destruct te; cbn; now rewrite app_nil_r. }
  destruct te; cbn [requests map].
  - exact (process_final_request E r w t rest F A).
  - rewrite app_nil_r. apply process_plain_no_request.
Qed.

Lemma for_each_calls te rs : forall w w' o,
  for_each (process_result E te) rs w = (w', o) ->
  source_language w' = source_language w /\
  target_language w' = target_language w /\
  exists ts,
    is_prefix ts (final_transcripts rs) /\
    translate_calls w'
    = translate_calls w
      ++ requests te (source_language w) (target_language w) ts /\
    (o = Ok tt -> ts = final_transcripts rs).
Proof.
  induction rs as [|r rs IH]; intros w w' o R.
  - inversion R; subst. repeat split. exists []. split; [now exists []|].
    split; [|reflexivity]. destruct te; cbn; now rewrite app_nil_r.
  - cbn [for_each] in R. unfold bind in R.
    pose proof (process_result_languages te r w) as [S1 T1].
    pose proof (process_result_calls te r w) as K1.
    destruct (process_result E te r w) as [w1 o1]. cbn [fst] in *.
    change (r :: rs) with ([r] ++ rs). rewrite final_transcripts_app.
    destruct o1 as [[]|e].
    + destruct (IH w1 w' o R) as (S2 & T2 & ts & (rest & P) & K2 & F2).
      split; [congruence|]. split; [congruence|].
      exists (final_transcripts [r] ++ ts). split.
      { exists rest. now rewrite P, app_assoc. }
      split.
      * rewrite K2, K1, S1, T1, requests_app. now rewrite app_assoc.
      * intros H. now rewrite (F2 H).
    + inversion R; subst. split; [assumption|]. split; [assumption|].
      exists (final_transcripts [r]). split.
      { now exists (final_transcripts rs). }
      split; [exact K1 | discriminate].
Qed.

Lemma for_responses_calls te items : forall w w' o,
  for_responses (process_result E te) items w = (w', o) ->
  source_language w' = source_language w /\
  target_language w' = target_language w /\
  exists ts,
    is_prefix ts (final_transcripts (results_of items)) /\
    translate_calls w'
    = translate_calls w
      ++ requests te (source_language w) (target_language w) ts /\
    (o = Ok tt -> ts = final_transcripts (results_of items)).
Proof.
  induction items as [|[rs|e] items IH]; intros w w' o R.
  - inversion R; subst. repeat split. exists []. split; [now exists []|].
    split; [|reflexivity]. destruct te; cbn; now rewrite app_nil_r.
  - cbn [for_responses] in R. unfold bind in R.
    destruct (for_each (process_result E te) rs w) as [w1 o1] eqn:R1.
    destruct (for_each_calls te rs w w1 o1 R1)
      as (S1 & T1 & ts1 & (rest1 & P1) & K1 & F1).
    change (results_of (Response rs :: items)) with (rs ++ results_of items).
    rewrite final_transcripts_app.
    destruct o1 as [[]|e].
    + destruct (IH w1 w' o R) as (S2 & T2 & ts & (rest & P) & K2 & F2).
      split; [congruence|]. split; [congruence|].
      exists (final_transcripts rs ++ ts). split.
      { exists rest. now rewrite P, app_assoc. }
      split.
      * rewrite K2, K1, S1, T1, (F1 eq_refl), requests_app.
        now rewrite app_assoc.
      * intros H. now rewrite (F2 H).
    + inversion R; subst. split; [assumption|]. split; [assumption|].
      exists ts1. split.
      { exists (rest1 ++ final_transcripts (results_of items)).
        now rewrite P1, app_assoc. }
      split; [exact K1 | discriminate].
  - inversion R; subst. repeat split. exists [].
    split; [now exists (final_transcripts (results_of items))|].
    split; [|discriminate]. destruct te; cbn; now rewrite app_nil_r.
Qed.

(** X12: a session asks the translation service once for each final event it
    takes up, in the order received, each time with the transcript, the
    target language and the source language cut at its first hyphen; it asks
    nothing for interim results, and nothing at all when translation is
    disabled. On a stream that ends without raising, with the log enabled
    and no call interrupted, every final event is asked for. *)
Theorem one_request_per_final_event (items : list stream_item)
    (te save : bool) (w0 : World) :
  exists ts,
    is_prefix ts (final_transcripts (results_of items)) /\
    translate_calls (fst (process_stream E items te save w0))
    = translate_calls w0
      ++ (if te
          then map (fun t => (t, target_language w0,
                              split_first hyphen (source_language w0))) ts
          else []) /\
    (save = true -> clean items = true -> (te = true -> uninterrupted E) ->
     ts = final_transcripts (results_of items)).
Proof.
  assert (OL : exists w1,
             (if save then open_log E else @ret unit tt) w0 = (w1, Ok tt) /\
             source_language w1 = source_language w0 /\
             target_language w1 = target_language w0 /\
             translate_calls w1 = translate_calls w0 /\
             (save = true -> file_ok (loop_start te w1))).
  { destruct save.
    - destruct (open_log_spec E w0)
        as (w1 & R1 & S1 & T1 & _ & _ & L1 & _ & O1).
      exists w1. repeat split; try assumption. intros _.
      destruct (loop_start_spec te w1) as (_ & _ & _ & _ & O2).
      unfold file_ok. now rewrite O2, O1.
    - exists w0. repeat split. discriminate. }
  destruct OL as (w1 & R1 & S1 & T1 & L1 & OK1).
  rewrite (process_stream_loop E te save items w0 w1 R1).
  destruct (loop_start_spec te w1) as ((S2 & T2 & _) & _ & _ & L2 & _).
  destruct (for_responses (process_result E te) items (loop_start te w1))
    as [w3 o3] eqn:R3.
  destruct (for_responses_calls te items _ _ _ R3)
    as (_ & _ & ts & P & K & F).
  exists ts. split; [exact P|]. split.
  - unfold try_finally, try_except. rewrite R3.
    assert (G : forall w r,
               translate_calls
                 (fst (let (w2, o) := close_log E w in
                       match o with
                       | Ok _ => (w2, r)
                       | Raise e => (w2, @Raise unit e)
                       end)) = translate_calls w).
    { intros w r. rewrite <- (close_log_calls w).
      destruct (close_log E w) as [w2 [[]|e]]; reflexivity. }
    fold (requests te (source_language w0) (target_language w0) ts).
    rewrite <- S1, <- T1, <- L1, <- S2, <- T2, <- L2, <- K.
    destruct o3 as [[]|[msg|]]; cbv beta iota; try apply G.
    set (w3' := add_console w3 ((nl ^^ "❌ Error: " ^^ msg) ^^ nl)).
    change (print (nl ^^ "❌ Error: " ^^ msg) w3) with (w3', @Ok unit tt).
    cbv beta iota. apply (G w3').
  - intros -> CL NI.
    destruct (for_responses_clean E te items (loop_start te w1) CL
                (OK1 eq_refl) NI) as (w3c & R3c & _).
    rewrite R3c in R3. inversion R3; subst. now apply F.
Qed.

(** *** A session that does not save *)

Lemma session_without_saving_any (items : list stream_item)
    (te : bool) (w0 : World) :
  output_file w0 = None ->
  exists w' o ts,
    process_stream E items te false w0 = (w', guarded o) /\
    output_file w' = None /\
    is_prefix ts (final_transcripts (results_of items)) /\
    (segment_count w' = List.length ts \/
     (~ uninterrupted E /\ segment_count w' = List.length ts + 1)).
Proof.
  intros O0.
  rewrite (process_stream_loop E te false items w0 w0 eq_refl).
  destruct (loop_start_spec te w0) as (_ & N2 & _ & _ & O2).
  assert (OK2 : file_ok (loop_start te w0)).
  { unfold file_ok. now rewrite O2, O0. }
  destruct (for_responses (process_result E te) items (loop_start te w0))
    as [w3 o3] eqn:R3.
  destruct (for_responses_taken E te items _ _ _ OK2 R3)
    as (ts & PF & _ & G3 & CT).
  unfold log_grows in G3. rewrite O2, O0 in G3.
  destruct (output_file w3) as [f3|] eqn:O3; [contradiction|].
  assert (CT' : segment_count w3 = List.length ts \/
                (~ uninterrupted E /\ segment_count w3 = List.length ts + 1)).
  { assert (C : counted E (loop_start te w0) w3 o3 ts).
    { destruct o3 as [[]|e]; [|exact CT]. left. apply CT. }
    unfold counted in C. rewrite N2 in C.
    destruct C as [C|(_ & U & C)]; [left | right; split]; auto. }
  unfold try_finally, try_except. rewrite R3.
  destruct o3 as [[]|[msg|]]; cbv beta iota.
  - rewrite (close_log_none E w3 O3).
    exists w3, (Ok tt), ts. auto.
  - set (w3' := add_console w3 ((nl ^^ "❌ Error: " ^^ msg) ^^ nl)).
    change (print (nl ^^ "❌ Error: " ^^ msg) w3) with (w3', @Ok unit tt).
    cbv beta iota. rewrite (close_log_none E w3' O3).
    exists w3', (Raise (Exception msg)), ts. auto.
  - rewrite (close_log_none E w3 O3).
    exists w3, (Raise KeyboardInterrupt), ts. auto.
Qed.

(** X13: with [save_to_file=False] on a translator that has no log handle
    yet, no log comes into being: whatever the stream delivers or raises,
    whatever the translation service does and whether or not translation is
    enabled, [self.output_file] is still absent when [process_stream] is
    left. *)
Theorem session_without_saving_creates_no_log (items : list stream_item)
    (te : bool) (w0 : World) :
  output_file w0 = None ->
  output_file (fst (process_stream E items te false w0)) = None.
Proof.
  intros O0.
  destruct (session_without_saving_any items te w0 O0)
    as (w' & o & ts & R & O & _).
  now rewrite R.
Qed.

End Sessions.

Lemma stream_error_keeps_committed_segments_witness :
  exists w' f,
    process_stream steady
      (two_utterances ++ StreamRaise (Exception "deadline") :: one_utterance)
      true true session = (w', Ok tt) /\
    segment_count w' = 2 /\
    output_file w' = Some f /\ closed f = true.
Proof.
  destruct (stream_error_keeps_committed_segments steady two_utterances
              one_utterance (Exception "deadline") true session eq_refl
              (fun _ => steady_uninterrupted))
    as (w' & f & R & C & O & CF & _).
  exists w', f. repeat split; assumption.
Defined.

Lemma result_without_alternative_ends_session_witness :
  exists w' f,
    process_stream steady
      (two_utterances
       ++ Response ([final "Amen."] ++ mkResult [] true :: [final "Lost."])
          :: one_utterance)
      true true session = (w', Ok tt) /\
    segment_count w' = 3 /\
    output_file w' = Some f /\ closed f = true.
Proof.
  destruct (result_without_alternative_ends_session steady two_utterances
              one_utterance [final "Amen."] [final "Lost."]
              (mkResult [] true) true session eq_refl eq_refl eq_refl
              (fun _ => steady_uninterrupted))
    as (w' & f & R & C & O & CF & _).
  exists w', f. repeat split; assumption.
Defined.

Lemma one_request_per_final_event_witness :
  translate_calls
    (fst (process_stream steady two_utterances true true session))
  = [("Good morning everyone.", "es", "en");
     ("Let us pray.", "es", "en")]%string.
Proof.
  destruct (one_request_per_final_event steady two_utterances true true
              session) as (ts & _ & K & F).
  rewrite K, (F eq_refl eq_refl (fun _ => steady_uninterrupted)).
  reflexivity.
Defined.

Lemma session_without_saving_creates_no_log_witness :
  output_file
    (fst (process_stream interrupted two_utterances true false session))
  = None.
Proof.
  exact (session_without_saving_creates_no_log interrupted two_utterances
           true session eq_refl).
Defined.

End TranslatorMore.

(* ================================================================== *)
(** ** Part XII: the main program                                      *)
(* ================================================================== *)

Module ProgramFacts.

Import Streamer Translator Layout Session Examples Schedules Program.
Import TranslatorFacts TranslatorMore.

Lemma print_all_fields out : forall w,
  source_language (print_all out w) = source_language w /\
  target_language (print_all out w) = target_language w /\
  output_file (print_all out w) = output_file w /\
  segment_count (print_all out w) = segment_count w /\
  clock (print_all out w) = clock w /\
  translate_calls (print_all out w) = translate_calls w.
Proof.
  unfold print_all.
  induction out as [|x out IH]; intros w; cbn [fold_left];
    [repeat split|].
  destruct (IH (add_console w x)) as (A & B & C & D & F & G).
  repeat split; assumption.
Qed.

Lemma init_none devices :
  exists out found, Devices.__init__ devices None = (out, (found, init)).
Proof.
  unfold Devices.__init__, Devices._find_usb_device.
  destruct (Devices.find_from 0 devices) as [out found]. eauto.
Qed.

(** X14: when the device opens, the main program releases it whatever the
    session does. The session starts on a translator for en-US and es with
    no log, the clock unread and no call made; however the call of
    [process_stream] ends, the capture flag is lowered, the stream closed
    and the audio subsystem terminated, the log handle and the counter are
    left as the session left them, and the last thing printed is the
    closing line. An operator interrupt out of the session is swallowed,
    the program ending normally; any other error goes on out of the
    program. *)
Theorem main_releases_device_whatever_session_does (H : Host) :
  open_error H = None ->
  exists w2,
    source_language w2 = "en-US"%string /\
    target_language w2 = "es"%string /\
    output_file w2 = None /\ clock w2 = 0 /\ translate_calls w2 = [] /\
    (forall E items,
       main H E items = main_with H (process_stream E items true true)) /\
    forall session, exists w printed,
      main_with H session
        = ((mkStreamer false [] (Some StreamClosed) true, w),
           interrupt_caught (snd (session w2))) /\
      output_file w = output_file (fst (session w2)) /\
      segment_count w = segment_count (fst (session w2)) /\
      console w = printed ++ [(nl ^^ "✅ Done!") ^^ nl].
Proof.
  intros OE. unfold main, main_with.
  destruct (init_none (devices H)) as (out & found & ->).
  unfold start_stream_io. rewrite OE.
  set (w2 := add_console _ _).
  exists w2.
  assert (W2 : source_language w2 = "en-US"%string /\
               target_language w2 = "es"%string /\
               output_file w2 = None /\
               clock w2 = 0 /\ translate_calls w2 = []).
  { subst w2. cbn [source_language target_language clock translate_calls
                   output_file add_console].
    destruct (print_all_fields out
                (print_all [ str_mul "=" 60 ^^ nl;
                  "🎙️  USB Audio → Speech-to-Text → Translation" ^^ nl;
                  str_mul "=" 60 ^^ nl ] (fresh "en-US" "es")))
      as (A & B & O & _ & C & D).
    rewrite A, B, O, C, D. repeat split. }
  destruct W2 as (S2 & T2 & O2 & C2 & L2).
  repeat (split; [assumption|]).
  split; [reflexivity|].
  intros session. destruct (session w2) as [w3 [[]|[msg|]]];
    cbv beta iota; unfold stop_stream_io; cbn [snd fst interrupt_caught];
    eexists; eexists; (split; [reflexivity|]);
    cbn [output_file segment_count console add_console];
    repeat split.
Qed.

Lemma main_releases_device_whatever_session_does_witness :
  exists w w',
    main_with (mkHost Devices.usb_speaker_first None) interrupted_session
      = ((mkStreamer false [] (Some StreamClosed) true, w), Ok tt) /\
    main_with (mkHost Devices.usb_speaker_first None)
              (failing_session "File exists")
      = ((mkStreamer false [] (Some StreamClosed) true, w'),
         Raise (Exception "File exists")).
Proof.
  destruct (main_releases_device_whatever_session_does
              (mkHost Devices.usb_speaker_first None) eq_refl)
    as (w2 & _ & _ & _ & _ & _ & _ & W).
  destruct (W interrupted_session) as (w & p & R & _).
  destruct (W (failing_session "File exists")) as (w' & p' & R' & _).
  exists w, w'. split; [exact R | exact R'].
Defined.

(** X15: when the device cannot be opened, the program never starts a session:
    no log is created, the clock is not read, the translation service is
    not called; the capture flag, which was raised before the failed open,
    is lowered again, the audio subsystem is terminated without a stream
    being touched, and the error leaves the program. *)
Theorem main_without_device_starts_no_session (H : Host) (E : Env)
    (items : list stream_item) (msg : string) :
  open_error H = Some msg ->
  exists self w,
    main H E items = ((self, w), Raise (Exception msg)) /\
    self = mkStreamer false [] None true /\
    output_file w = None /\ clock w = 0 /\ translate_calls w = [] /\
    segment_count w = 0.
Proof.
  intros OE. unfold main.
  destruct (init_none (devices H)) as (out & found & ->).
  unfold start_stream_io. rewrite OE. cbv beta iota.
  unfold stop_stream_io. do 2 eexists. split; [reflexivity|].
  split; [reflexivity|].
  cbn [output_file clock translate_calls segment_count add_console].
  destruct (print_all_fields out
              (print_all [ str_mul "=" 60 ^^ nl;
                "🎙️  USB Audio → Speech-to-Text → Translation" ^^ nl;
                str_mul "=" 60 ^^ nl ] (fresh "en-US" "es")))
    as (_ & _ & A & B & C & D).
  rewrite A, B, C, D. repeat split.
Qed.

Lemma main_without_device_starts_no_session_witness :
  exists self w,
    main (mkHost [] (Some "Invalid input device"%string)) steady
         two_utterances
      = ((self, w), Raise (Exception "Invalid input device")) /\
    output_file w = None.
Proof.
  destruct (main_without_device_starts_no_session
              (mkHost [] (Some "Invalid input device"%string)) steady
              two_utterances "Invalid input device" eq_refl)
    as (self & w & R & _ & O & _).
  exists self, w. split; [exact R | exact O].
Defined.

End ProgramFacts.

(* ================================================================== *)
(** ** Part XIII: the image URL helper of the client                   *)
(* ================================================================== *)

Module ClientFacts.

Import Client.

Lemma prefix_append p : forall a u,
  prefix p a = true -> prefix p (a ^^ u) = true.
Proof.
  induction p as [|c p IH]; intros a u H.
  - now destruct (a ^^ u).
  - destruct a as [|d a]; [discriminate|]. cbn [append prefix] in *.
    destruct (ascii_dec c d); [now apply IH | discriminate].
Qed.

(** X16: [getImageUrl] returns [null] exactly for a missing or empty URL and
    never an empty string. When the API address itself starts with http, as
    the built-in default does, every URL it returns starts with http, so
    formatting an already formatted URL changes nothing. *)
Theorem getImageUrl_is_idempotent (api_url : string) (url : option string) :
  prefix "http" api_url = true ->
  (getImageUrl api_url url = None <->
   url = None \/ url = Some EmptyString) /\
  (forall r, getImageUrl api_url url = Some r ->
             prefix "http" r = true /\ r <> EmptyString) /\
  getImageUrl api_url (getImageUrl api_url url) = getImageUrl api_url url /\
  prefix "http" (API_URL None) = true /\
  prefix "http" (API_URL (Some EmptyString)) = true.
Proof.
  intros P.
  assert (R : forall r, getImageUrl api_url url = Some r ->
                        prefix "http" r = true /\ r <> EmptyString).
  { intros r. destruct url as [[|c u]|]; cbn [getImageUrl]; try discriminate.
    destruct (prefix "http" (String c u)) eqn:Q; intros H; inversion H; subst.
    - split; [exact Q | discriminate].
    - split; [now apply prefix_append|].
      destruct api_url; discriminate. }
  split; [|split; [exact R|split; [|split; reflexivity]]].
  - destruct url as [[|c u]|]; cbn [getImageUrl].
    + split; auto.
    + destruct (prefix "http" (String c u)); split;
        try discriminate; intros [Q|Q]; discriminate.
    + split; auto.
  - destruct (getImageUrl api_url url) as [r|] eqn:G; [|reflexivity].
    destruct (R r eq_refl) as [Q N].
    destruct r as [|c r]; [now elim N|].
    cbn [getImageUrl]. now rewrite Q.
Qed.

Lemma getImageUrl_is_idempotent_witness :
  getImageUrl (API_URL None)
    (getImageUrl (API_URL None) (Some "/uploads/cover.png"%string))
  = Some "http://localhost:5000/uploads/cover.png"%string.
Proof.
  destruct (getImageUrl_is_idempotent (API_URL None)
              (Some "/uploads/cover.png"%string) eq_refl)
    as (_ & _ & I & _).
  rewrite I. reflexivity.
Defined.

End ClientFacts.
